(** * mcp-filesystem: path validation, validation cache and patch engine

    A shallow embedding of the security-relevant core of the server:

    - [src/utils/path.ts]  (the [PathValidationCache] class, [expandHome],
      [validatePath]),
    - the stand-alone single-file server ([validatePath], [applyFileEdits]),
    - [src/utils/tools.ts] ([editFile], [createUnifiedDiff]).

    JavaScript strings are modelled as Rocq strings whose characters are code
    units in the Latin-1 range (so a text has no surrogates, and what is
    written in UTF-8 is read back unchanged); the JS [Map] is an
    insertion-ordered association list; the file store is a finite map from
    the locations of the regular files to their texts, and a path is taken
    to its file by following symbolic links; exceptions are an explicit error
    type threaded through a small state-and-exception monad. *)

From Stdlib Require Import String Ascii List ZArith Lia Bool.
From stdpp Require Import base option list gmap strings.

Local Open Scope Z_scope.

(** ** JavaScript string primitives *)

Module JS.

Definition LF : ascii := "010"%char.
Definition CR : ascii := "013"%char.
Definition SP : ascii := " "%char.
Definition BACKTICK : ascii := "`"%char.

(** [undefined]-or-string truthiness: [if (x)] on a [string | undefined]. *)
Definition truthy (x : option string) : bool :=
  match x with
  | Some (String _ _) => true
  | _ => false
  end.

(** [s.startsWith(p)] *)
Fixpoint startsWith (s p : string) : bool :=
  match p, s with
  | EmptyString, _ => true
  | String a p', String b s' => Ascii.eqb a b && startsWith s' p'
  | String _ _, EmptyString => false
  end.

(** [s.includes(p)] *)
Fixpoint includes (s p : string) : bool :=
  startsWith s p ||
  match s with
  | EmptyString => false
  | String _ s' => includes s' p
  end.

(** [c.repeat(n)] for a one-character string [c]. *)
Fixpoint repeat (c : ascii) (n : nat) : string :=
  match n with
  | O => EmptyString
  | S n' => String c (repeat c n')
  end.

(** [s.split(sep)] for a one-character separator: never the empty array,
    [''.split(sep)] is [['']]. *)
Fixpoint split (sep : ascii) (s : string) : list string :=
  match s with
  | EmptyString => [EmptyString]
  | String c s' =>
      if Ascii.eqb c sep then EmptyString :: split sep s'
      else match split sep s' with
           | [] => [String c EmptyString]
           | l :: ls => String c l :: ls
           end
  end.

(** [ls.join(sep)] *)
Fixpoint join (sep : ascii) (ls : list string) : string :=
  match ls with
  | [] => EmptyString
  | [l] => l
  | l :: ls' => l +:+ String sep (join sep ls')
  end.

(** [ls.join(sep)] for a separator string. *)
Fixpoint joinStr (sep : string) (ls : list string) : string :=
  match ls with
  | [] => EmptyString
  | [l] => l
  | l :: ls' => l +:+ sep +:+ joinStr sep ls'
  end.

(** [s.replace(/\r\n/g, '\n')] *)
Fixpoint replaceCRLF (s : string) : string :=
  match s with
  | EmptyString => EmptyString
  | String c1 s' =>
      match s' with
      | String c2 s'' =>
          if Ascii.eqb c1 CR && Ascii.eqb c2 LF
          then String LF (replaceCRLF s'')
          else String c1 (replaceCRLF s')
      | EmptyString => String c1 EmptyString
      end
  end.

(** The class [\s] of a JS regular expression, which is also what
    [trimStart] strips, restricted to code units below 256:
    TAB, LF, VT, FF, CR, SPACE and NBSP. *)
Definition isSpace (c : ascii) : bool :=
  let n := nat_of_ascii c in
  (Nat.leb 9 n && Nat.leb n 13) || Nat.eqb n 32 || Nat.eqb n 160.

(** [s.match(/^\s*/)?.[0] || ''] *)
Fixpoint leadingSpace (s : string) : string :=
  match s with
  | String c s' => if isSpace c then String c (leadingSpace s') else EmptyString
  | EmptyString => EmptyString
  end.

(** [s.trimStart()] *)
Fixpoint trimStart (s : string) : string :=
  match s with
  | String c s' => if isSpace c then trimStart s' else s
  | EmptyString => EmptyString
  end.

(** [a.slice(i, j)] on arrays, for [0 <= i <= j]. *)
Definition slice {A} (i j : nat) (l : list A) : list A :=
  take (j - i)%nat (drop i l).

(** [a.splice(i, n, ...items)] (the array after the call). *)
Definition splice {A} (i n : nat) (items l : list A) : list A :=
  take i l ++ items ++ drop (i + n)%nat l.

End JS.

(** ** Errors ([src/errors/index.ts] and the built-in ones) *)

Inductive JsError : Type :=
| AccessDeniedError (path message : string)      (* code 'ACCESS_DENIED' *)
| PathNotFoundError (path : string)              (* code 'PATH_NOT_FOUND' *)
| InvalidArgumentsError (toolName details : string) (* code 'INVALID_ARGS' *)
| FileSizeError (path : string) (size maxSize : Z)  (* code 'FILE_SIZE_EXCEEDED' *)
| Error (message : string)                       (* plain [new Error(...)] *)
| ErrnoException (code : string).                (* thrown by [node:fs] *)

(** The [code] property read by [(error as NodeJS.ErrnoException).code];
    a plain [Error] has none. *)
Definition errorCode (e : JsError) : option string :=
  match e with
  | AccessDeniedError _ _ => Some "ACCESS_DENIED"
  | PathNotFoundError _ => Some "PATH_NOT_FOUND"
  | InvalidArgumentsError _ _ => Some "INVALID_ARGS"
  | FileSizeError _ _ _ => Some "FILE_SIZE_EXCEEDED"
  | Error _ => None
  | ErrnoException c => Some c
  end.

(** [new AccessDeniedError(path, message?)]: the default message. *)
Definition mkAccessDenied (path : string) (message : option string) : JsError :=
  AccessDeniedError path
    (if JS.truthy message then default EmptyString message
     else "Access denied - path outside allowed directories: " +:+ path).

Definition isENOENT (e : JsError) : bool :=
  match errorCode e with
  | Some c => String.eqb c "ENOENT"
  | None => false
  end.

(** ** Completions and the state-and-exception monad

    An [async] function of the server either returns a value or throws, and
    in both cases the mutations it made so far (cache, timers, file store)
    stay.  [await] is sequencing: requests are modelled one at a time.
    Metrics are left out: they change neither the answer nor the cache nor
    the file store.  The server is taken without a log file
    ([config.logFile] unset, the default), so that its logger writes to
    [stderr] only and is left out as well; with a log file every
    [logger.warn], and at log level [debug] every [logger.debug], would
    append a line to that file. *)

Inductive Completion (A : Type) : Type :=
| Returned (a : A)
| Thrown (e : JsError).
Arguments Returned {A} a.
Arguments Thrown {A} e.

Definition M (St A : Type) : Type := St -> Completion A * St.

Definition ret {St A} (a : A) : M St A := fun s => (Returned a, s).
Definition throw {St A} (e : JsError) : M St A := fun s => (Thrown e, s).
Definition bind {St A B} (m : M St A) (k : A -> M St B) : M St B :=
  fun s => match m s with
           | (Returned a, s') => k a s'
           | (Thrown e, s') => (Thrown e, s')
           end.
Definition tryCatch {St A} (m : M St A) (h : JsError -> M St A) : M St A :=
  fun s => match m s with
           | (Returned a, s') => (Returned a, s')
           | (Thrown e, s') => h e s'
           end.
Definition gets {St A} (f : St -> A) : M St A := fun s => (Returned (f s), s).
Definition modify {St} (f : St -> St) : M St unit := fun s => (Returned tt, f s).

Declare Scope js_scope.
Delimit Scope js_scope with js.
Notation "'let*' x ':=' m 'in' k" := (bind m (fun x => k))
  (at level 10, x pattern, m at level 100, k at level 200) : js_scope.
Notation "'do' m 'in' k" := (bind m (fun _ => k))
  (at level 10, m at level 100, k at level 200) : js_scope.

(** ** The host: [node:path], [node:os], [process], [node:fs] and [diff]

    Library and operating-system behaviour the server calls into.  The
    general theorems hold for every host; [Posix] below gives the concrete
    POSIX one used to run examples. *)

Inductive FsResult : Type :=
| Resolved (realPath : string)
| Failed (code : string).           (* 'ENOENT', 'EACCES', 'ELOOP', ... *)

(** How [fs.writeFile] ends once the file is found: it writes the whole
    text, or it fails with a code, either before it touched the file
    ([None]) or part-way, leaving some other text ([Some remains]): the file is
    truncated when it is opened and filled afterwards. *)
Inductive WriteResult : Type :=
| Written
| WriteFailed (code : string) (remains : option string).   (* 'EACCES', 'ENOSPC', 'EIO', ... *)

Class Host : Type := {
  homedir : string;                         (* os.homedir() *)
  cwd : string;                             (* process.cwd() *)
  isAbsolute : string -> bool;              (* path.isAbsolute *)
  normalize : string -> string;             (* path.normalize *)
  resolve : list string -> string;          (* path.resolve(...) *)
  dirname : string -> string;               (* path.dirname *)
  join : list string -> string;             (* path.join(...) *)
  realpath : string -> FsResult;            (* fs.realpath *)
  creates : string -> FsResult;
    (* where opening a path that [realpath] does not find makes the file:
       in the real parent directory or, for a symbolic link that dangles,
       at the link's target *)
  writeResult : string -> string -> WriteResult;
    (* how writing a text to the file at a location ends *)
  createTwoFilesPatch :                     (* from the 'diff' package *)
    string -> string -> string -> string -> string -> string -> string;
}.

(** ** The validation cache ([PathValidationCache], src/utils/path.ts)

    [cache] is the JS [Map]: an association list in insertion order with
    pairwise distinct keys.  [clock] and [timeouts] are the part of the event
    loop the class uses: every [setTimeout] callback of [set] deletes one key,
    so a pending timeout is its deadline and that key. *)

Module PathValidationCache.

Record t : Type := mk {
  cache : list (string * string);
  maxSize : Z;
  ttl : Z;
  clock : Z;
  timeouts : list (Z * string);
}.

(** [new PathValidationCache(maxSize, ttlMs)] created at time [now]. *)
Definition new (maxSize ttlMs now : Z) : t := mk [] maxSize ttlMs now [].

(** [Map.prototype.get] *)
Fixpoint mapGet (k : string) (m : list (string * string)) : option string :=
  match m with
  | [] => None
  | (k', v) :: m' => if String.eqb k' k then Some v else mapGet k m'
  end.

(** [Map.prototype.set]: an existing key keeps its place in the order. *)
Fixpoint mapSet (k v : string) (m : list (string * string)) : list (string * string) :=
  match m with
  | [] => [(k, v)]
  | (k', v') :: m' =>
      if String.eqb k' k then (k, v) :: m' else (k', v') :: mapSet k v m'
  end.

(** [Map.prototype.delete] *)
Definition mapDelete (k : string) (m : list (string * string)) : list (string * string) :=
  List.filter (fun kv => negb (String.eqb (fst kv) k)) m.

(** [map.keys().next().value] *)
Definition firstKey (m : list (string * string)) : option string :=
  match m with
  | [] => None
  | (k, _) :: _ => Some k
  end.

Definition get (path : string) (c : t) : option string := mapGet path (cache c).

Definition size (c : t) : Z := Z.of_nat (length (cache c)).

Definition clear (c : t) : t :=
  mk [] (maxSize c) (ttl c) (clock c) (timeouts c).

(** The delay Node gives a timeout of [ms] milliseconds: values below 1 or
    above 2^31-1 become 1. *)
Definition timerDelay (ms : Z) : Z :=
  if (ms <? 1) || (2147483647 <? ms) then 1 else ms.

Definition set (path validatedPath : string) (c : t) : t :=
  (* If cache is full, remove oldest entry *)
  let m1 :=
    if size c >=? maxSize c then
      let oldestKey := firstKey (cache c) in
      if JS.truthy oldestKey
      then mapDelete (default EmptyString oldestKey) (cache c)
      else cache c
    else cache c in
  let m2 := mapSet path validatedPath m1 in
  (* Set expiration for cache entry *)
  mk m2 (maxSize c) (ttl c) (clock c)
     (timeouts c ++ [(clock c + timerDelay (ttl c), path)]).

(** The event loop reaching time [now]: every timeout that is due runs its
    callback [this.cache.delete(path)] and is gone. *)
Definition due (now : Z) (tm : Z * string) : bool := fst tm <=? now.

Definition advance (now : Z) (c : t) : t :=
  let fired := List.filter (fun tm => due now tm) (timeouts c) in
  mk (fold_left (fun m tm => mapDelete (snd tm) m) fired (cache c))
     (maxSize c) (ttl c) (Z.max (clock c) now)
     (List.filter (fun tm => negb (due now tm)) (timeouts c)).

(** The operations a client and the event loop perform on one instance. *)
Inductive op : Type :=
| OpGet (path : string)
| OpSet (path validatedPath : string)
| OpAdvance (now : Z).

Definition step (c : t) (o : op) : t :=
  match o with
  | OpGet _ => c
  | OpSet p v => set p v c
  | OpAdvance now => advance now c
  end.

Definition run (ops : list op) (c : t) : t := fold_left step ops c.

End PathValidationCache.

(** ** Server state and configuration *)

(** What a request can read and change: the global [pathCache] and the file
    store.  A key of the store is the location of a regular file (its path
    with every symbolic link followed), the value is the file's text; what
    [realpath] finds but the store does not hold is a directory.  Links and
    directories are the host's and stay as they are.  A file has one
    location (no hard links) and can be read (no permissions). *)
Record Sys : Type := mkSys {
  pathCache : PathValidationCache.t;
  disk : gmap string string;
}.

(** What a path leads to when it is opened. *)
Inductive Entry : Type :=
| File (location content : string)
| Directory (location : string)
| Missing (code : string).           (* the code [realpath] fails with *)

(** The part of [Config] that [validatePath] reads. *)
Record Config : Type := mkConfig {
  allowedDirectories : list string;
}.

Local Open Scope js_scope.

Section Server.
Context `{H : Host}.

(** [fs.realpath(p)] *)
Definition fsRealpath (p : string) : M Sys string :=
  match realpath p with
  | Resolved r => ret r
  | Failed code => throw (ErrnoException code)
  end.

(** What opening [p] finds.  A path the store holds is the location of a
    regular file, hence that file (one made by an earlier write too); any
    other path is followed through its links by [realpath], and ends at a
    file of the store or, when the store has nothing there, at a
    directory. *)
Definition entryAt (s : Sys) (p : string) : Entry :=
  match disk s !! p with
  | Some content => File p content
  | None =>
      match realpath p with
      | Resolved r =>
          match disk s !! r with
          | Some content => File r content
          | None => Directory r
          end
      | Failed code => Missing code
      end
  end.

(** The file that opening [p] for writing reaches: a path that does not
    exist is no failure there, the file is made. *)
Definition fileForWrite (s : Sys) (p : string) : FsResult :=
  match entryAt s p with
  | File r _ => Resolved r
  | Directory _ => Failed "EISDIR"
  | Missing code => if String.eqb code "ENOENT" then creates p else Failed code
  end.

(** The store with [text] in the file at [r]. *)
Definition stored (r text : string) (s : Sys) : Sys :=
  mkSys (pathCache s) (<[r := text]> (disk s)).

(** [fs.readFile(p, 'utf-8')] *)
Definition fsReadFile (p : string) : M Sys string :=
  fun s => match entryAt s p with
           | File _ content => (Returned content, s)
           | Directory _ => (Thrown (ErrnoException "EISDIR"), s)
           | Missing code => (Thrown (ErrnoException code), s)
           end.

(** [fs.writeFile(p, content, 'utf-8')] *)
Definition fsWriteFile (p content : string) : M Sys unit :=
  fun s => match fileForWrite s p with
           | Resolved r =>
               match writeResult r content with
               | Written => (Returned tt, stored r content s)
               | WriteFailed code None => (Thrown (ErrnoException code), s)
               | WriteFailed code (Some remains) =>
                   (Thrown (ErrnoException code), stored r remains s)
               end
           | Failed code => (Thrown (ErrnoException code), s)
           end.

(** [pathCache.set(k, v)] *)
Definition pathCacheSet (k v : string) : M Sys unit :=
  modify (fun s => mkSys (PathValidationCache.set k v (pathCache s)) (disk s)).

Definition normalizePath (p : string) : string := normalize p.

(** [filepath.slice(1)] *)
Definition slice1 (s : string) : string :=
  match s with
  | EmptyString => EmptyString
  | String _ r => r
  end.

Definition expandHome (filepath : string) : string :=
  if JS.startsWith filepath "~/" || String.eqb filepath "~"
  then join [homedir; slice1 filepath]
  else filepath.

(** [path.isAbsolute(e) ? path.resolve(e) : path.resolve(process.cwd(), e)] *)
Definition absoluteOf (requestedPath : string) : string :=
  let expandedPath := expandHome requestedPath in
  if isAbsolute expandedPath then resolve [expandedPath]
  else resolve [cwd; expandedPath].

(** [allowedDirectories.some((dir) => p.startsWith(dir))] *)
Definition someStartsWith (dirs : list string) (p : string) : bool :=
  existsb (fun dir => JS.startsWith p dir) dirs.

(** *** [validatePath] of src/utils/path.ts *)

Definition validatePath (requestedPath : string) (config : Config) : M Sys string :=
  (* Check cache first for performance *)
  let* cachedPath := gets (fun s => PathValidationCache.get requestedPath (pathCache s)) in
  if JS.truthy cachedPath then ret (default EmptyString cachedPath) else
  let absolute := absoluteOf requestedPath in
  let normalizedRequested := normalizePath absolute in
  (* Check if path is within allowed directories *)
  let isAllowed := someStartsWith (allowedDirectories config) normalizedRequested in
  if negb isAllowed then throw (mkAccessDenied absolute None) else
  tryCatch
    ((* Check if path exists and verify its real path *)
     let* realPath := fsRealpath absolute in
     let normalizedReal := normalizePath realPath in
     let isRealPathAllowed := someStartsWith (allowedDirectories config) normalizedReal in
     if negb isRealPathAllowed then
       throw (mkAccessDenied absolute
                (Some "Access denied - symlink target outside allowed directories"))
     else
       (* Store in cache and return *)
       do pathCacheSet requestedPath realPath in
       ret realPath)
    (fun error =>
       (* Special handling for non-existent paths *)
       if isENOENT error then
         let parentDir := dirname absolute in
         tryCatch
           (let* realParentPath := fsRealpath parentDir in
            let normalizedParent := normalizePath realParentPath in
            let isParentAllowed := someStartsWith (allowedDirectories config) normalizedParent in
            if negb isParentAllowed then
              throw (mkAccessDenied parentDir
                       (Some "Access denied - parent directory outside allowed directories"))
            else
              (* Path is valid but doesn't exist *)
              do pathCacheSet requestedPath absolute in
              ret absolute)
           (fun parentError =>
              if isENOENT parentError then throw (PathNotFoundError parentDir)
              else throw parentError)
       else throw error).

End Server.

(** *** [validatePath] of the stand-alone server

    There [allowedDirectories] is a module-level constant, there is no cache,
    and every failure is a plain [Error] told apart by its message only. *)

Module Standalone.
Section Standalone.
Context `{H : Host}.
Variable allowedDirectories : list string.

Definition validatePath (requestedPath : string) : M Sys string :=
  let absolute := absoluteOf requestedPath in
  let normalizedRequested := normalizePath absolute in
  let isAllowed := someStartsWith allowedDirectories normalizedRequested in
  if negb isAllowed then
    throw (Error ("Access denied - path outside allowed directories: " +:+ absolute
                  +:+ " not in " +:+ JS.joinStr ", " allowedDirectories))
  else
  tryCatch
    ((* Check if the real path (resolving symlinks) is within allowed directories *)
     let* realPath := fsRealpath absolute in
     let normalizedReal := normalizePath realPath in
     let isRealPathAllowed := someStartsWith allowedDirectories normalizedReal in
     if negb isRealPathAllowed then
       throw (Error "Access denied - symlink target outside allowed directories")
     else ret realPath)
    (fun error =>
       (* Handle the case where the path doesn't exist yet but its parent does *)
       let parentDir := dirname absolute in
       tryCatch
         (let* realParentPath := fsRealpath parentDir in
          let normalizedParent := normalizePath realParentPath in
          let isParentAllowed := someStartsWith allowedDirectories normalizedParent in
          if negb isParentAllowed then
            throw (Error "Access denied - parent directory outside allowed directories")
          else ret absolute)
         (fun _ => throw (Error ("Parent directory does not exist: " +:+ parentDir)))).

End Standalone.
End Standalone.

(** ** The patch engine *)

Record EditOperation : Type := mkEdit {
  oldText : string;
  newText : string;
}.

Record EditFileArgs : Type := mkEditFileArgs {
  path : string;
  edits : list EditOperation;
  dryRun : bool;
}.

Module Patch.

(** The body of the inner [for] loop's test, for every offset [i] with
    [i <= contentLines.length - oldLines.length], lowest first: [todo] is the
    number of offsets not yet tried. *)
Fixpoint scan (contentLines oldLines : list string) (normalizedOld : string)
    (i todo : nat) : option nat :=
  match todo with
  | O => None
  | S todo' =>
      let potentialMatch :=
        JS.join JS.LF (JS.slice i (i + length oldLines) contentLines) in
      if String.eqb potentialMatch normalizedOld then Some i
      else scan contentLines oldLines normalizedOld (S i) todo'
  end.

Definition findMatch (contentLines oldLines : list string) (normalizedOld : string)
    : option nat :=
  scan contentLines oldLines normalizedOld 0
       (S (length contentLines) - length oldLines).

(** The callback of [normalizedNew.split('\n').map((line, j) => ...)]. *)
Definition reindent (originalIndent : string) (oldLines : list string)
    (j : nat) (line : string) : string :=
  if Nat.eqb j 0 then originalIndent +:+ JS.trimStart line
  else
    (* Try to maintain relative indentation *)
    let oldIndent := from_option JS.leadingSpace EmptyString (oldLines !! j) in
    let newIndent := JS.leadingSpace line in
    if JS.truthy (Some oldIndent) && JS.truthy (Some newIndent) then
      let relativeIndent :=
        Z.of_nat (String.length newIndent) - Z.of_nat (String.length oldIndent) in
      originalIndent +:+ JS.repeat JS.SP (Z.to_nat (Z.max 0 relativeIndent))
                     +:+ JS.trimStart line
    else line.

Definition notFoundMessage (edit : EditOperation) : string :=
  "Could not find exact match for edit:" +:+ String JS.LF (oldText edit).

(** One turn of the outer [for (const edit of edits)] loop: the new
    [modifiedContent], or the exception thrown.  [emptyOldText] is what the
    caller throws when [oldLines.length === 0]. *)
Definition applyEdit (emptyOldText : JsError) (modifiedContent : string)
    (edit : EditOperation) : Completion string :=
  let contentLines := JS.split JS.LF modifiedContent in
  (* Normalize line endings *)
  let normalizedOld := JS.replaceCRLF (oldText edit) in
  let normalizedNew := JS.replaceCRLF (newText edit) in
  let oldLines := JS.split JS.LF normalizedOld in
  if Nat.eqb (length oldLines) 0 then Thrown emptyOldText
  else
    match findMatch contentLines oldLines normalizedOld with
    | Some i =>
        (* Preserve indentation *)
        let originalIndent :=
          from_option JS.leadingSpace EmptyString (contentLines !! i) in
        let newLines :=
          imap (reindent originalIndent oldLines) (JS.split JS.LF normalizedNew) in
        Returned (JS.join JS.LF (JS.splice i (length oldLines) newLines contentLines))
    | None => Thrown (Error (notFoundMessage edit))
    end.

(** The whole loop; the flag is [appliedAnyEdit] of [editFile]. *)
Fixpoint applyEdits (emptyOldText : JsError) (modifiedContent : string)
    (appliedAnyEdit : bool) (edits : list EditOperation)
    : Completion (string * bool) :=
  match edits with
  | [] => Returned (modifiedContent, appliedAnyEdit)
  | edit :: rest =>
      match applyEdit emptyOldText modifiedContent edit with
      | Returned modified' => applyEdits emptyOldText modified' true rest
      | Thrown e => Thrown e
      end
  end.

(** [let n = 3; while (diff.includes('`'.repeat(n))) n++]: the loop leaves
    before [n] passes the length of [diff], hence the bound on its turns. *)
Fixpoint growFence (diff : string) (numBackticks turns : nat) : nat :=
  match turns with
  | O => numBackticks
  | S turns' =>
      if JS.includes diff (JS.repeat JS.BACKTICK numBackticks)
      then growFence diff (S numBackticks) turns'
      else numBackticks
  end.

Definition numBackticks (diff : string) : nat :=
  growFence diff 3 (String.length diff).

(** [`${'`'.repeat(n)}diff\n${diff}${'`'.repeat(n)}\n\n`] *)
Definition fenced (diff : string) : string :=
  let n := numBackticks diff in
  JS.repeat JS.BACKTICK n +:+ "diff" +:+ String JS.LF diff
    +:+ JS.repeat JS.BACKTICK n +:+ String JS.LF (String JS.LF EmptyString).

End Patch.

Section Tools.
Context `{H : Host}.

Definition lift {A} (c : Completion A) : M Sys A := fun s => (c, s).

(** [createUnifiedDiff] of src/utils/tools.ts (the fence is part of it). *)
Definition createUnifiedDiff (originalContent modifiedContent filePath : string) : string :=
  let diff := createTwoFilesPatch filePath filePath originalContent modifiedContent
                "Original" "Modified" in
  Patch.fenced diff.

Definition noChangesMade : string :=
  "No changes made - all edit patterns were empty or not found".

(** [editFile] of src/utils/tools.ts.  Its [catch] only records a metric and
    rethrows. *)
Definition editFile (args : EditFileArgs) (config : Config) : M Sys string :=
  let* validPath := validatePath (path args) config in
  (* Read the original content *)
  let* content := fsReadFile validPath in
  let* (modifiedContent, appliedAnyEdit) :=
    lift (Patch.applyEdits
            (InvalidArgumentsError "edit_file" "Edit operation contains empty oldText")
            content false (edits args)) in
  (* If no edits were applied, return early *)
  if negb appliedAnyEdit then ret noChangesMade else
  (* Generate diff *)
  let diff := createUnifiedDiff content modifiedContent validPath in
  (* Write file if not a dry run *)
  do (if negb (dryRun args) then fsWriteFile validPath modifiedContent else ret tt) in
  ret diff.

End Tools.

Module StandaloneEdit.
Section StandaloneEdit.
Context `{H : Host}.

(** [createUnifiedDiff] of the stand-alone server: the bare patch. *)
Definition createUnifiedDiff (originalContent modifiedContent filePath : string) : string :=
  createTwoFilesPatch filePath filePath originalContent modifiedContent
    "Original" "Modified".

(** [applyFileEdits(filePath, edits, dryRun)] *)
Definition applyFileEdits (filePath : string) (edits : list EditOperation)
    (dryRun : bool) : M Sys string :=
  (* Read the original file content *)
  let* content := fsReadFile filePath in
  (* Apply each edit sequentially *)
  let* (modifiedContent, _) :=
    lift (Patch.applyEdits (Error "Edit operation contains empty oldText")
            content false edits) in
  (* Generate a diff to show changes *)
  let diff := createUnifiedDiff content modifiedContent filePath in
  let formattedDiff := Patch.fenced diff in
  (* Actually write the changes if not in dry run mode *)
  do (if negb dryRun then fsWriteFile filePath modifiedContent else ret tt) in
  ret formattedDiff.

(** The [edit_file] tool of the stand-alone server. *)
Definition editFileTool (allowedDirectories : list string) (args : EditFileArgs)
    : M Sys string :=
  let* validPath := Standalone.validatePath allowedDirectories (path args) in
  applyFileEdits validPath (edits args) (dryRun args).

End StandaloneEdit.
End StandaloneEdit.

(** ** A concrete POSIX host

    [node:path] in its POSIX flavour, written on path segments, and a file
    system given by a table of real paths (a path not in the table does not
    exist) on which every write completes.  Used to run the model on
    concrete requests. *)

Module Posix.

Definition SLASH : ascii := "/"%char.

Definition isAbsolute (p : string) : bool := JS.startsWith p "/".

(** [normalizeString(path, allowAboveRoot, '/')]: [res] holds the segments
    kept so far, last one first. *)
Fixpoint normalizeSegments (allowAboveRoot : bool) (segments res : list string)
    : list string :=
  match segments with
  | [] => rev res
  | seg :: rest =>
      if String.eqb seg EmptyString || String.eqb seg "." then
        normalizeSegments allowAboveRoot rest res
      else if String.eqb seg ".." then
        match res with
        | last :: res' =>
            if String.eqb last ".." then
              normalizeSegments allowAboveRoot rest
                (if allowAboveRoot then ".." :: res else res)
            else normalizeSegments allowAboveRoot rest res'
        | [] =>
            normalizeSegments allowAboveRoot rest
              (if allowAboveRoot then [".."] else [])
        end
      else normalizeSegments allowAboveRoot rest (seg :: res)
  end.

Definition normalizeString (p : string) (allowAboveRoot : bool) : string :=
  JS.join SLASH (normalizeSegments allowAboveRoot (JS.split SLASH p) []).

Definition endsWithSlash (p : string) : bool :=
  match rev (list_ascii_of_string p) with
  | c :: _ => Ascii.eqb c SLASH
  | [] => false
  end.

Definition normalize (p : string) : string :=
  if String.eqb p EmptyString then "." else
  let isAbs := isAbsolute p in
  let trailingSeparator := endsWithSlash p in
  let p1 := normalizeString p (negb isAbs) in
  if String.eqb p1 EmptyString then
    if isAbs then "/" else if trailingSeparator then "./" else "."
  else
    let p2 := if trailingSeparator then p1 +:+ "/" else p1 in
    if isAbs then "/" +:+ p2 else p2.

(** The right-to-left loop of [resolve]: stop at the first absolute
    argument, skip empty ones. *)
Fixpoint resolveLoop (argsRev : list string) (resolvedPath : string)
    : string * bool :=
  match argsRev with
  | [] => (resolvedPath, false)
  | p :: rest =>
      if String.eqb p EmptyString then resolveLoop rest resolvedPath
      else
        let resolvedPath' := p +:+ "/" +:+ resolvedPath in
        if isAbsolute p then (resolvedPath', true)
        else resolveLoop rest resolvedPath'
  end.

Definition resolve (cwd : string) (args : list string) : string :=
  let '(resolvedPath, resolvedAbsolute) := resolveLoop (rev (cwd :: args)) EmptyString in
  let r := normalizeString resolvedPath (negb resolvedAbsolute) in
  if resolvedAbsolute then "/" +:+ r
  else if String.eqb r EmptyString then "." else r.

(** [join(...args)]: the non-empty arguments joined by '/', normalized. *)
Definition join (args : list string) : string :=
  match List.filter (fun a => negb (String.eqb a EmptyString)) args with
  | [] => "."
  | parts => normalize (JS.join SLASH parts)
  end.

Definition dropWhile {A} (f : A -> bool) : list A -> list A :=
  fix go l := match l with
              | x :: l' => if f x then go l' else l
              | [] => []
              end.

(** [dirname(path)]: scan from the right, over trailing slashes and then
    over the last segment, to the slash before it (never the first
    character). *)
Definition dirname (p : string) : string :=
  match list_ascii_of_string p with
  | [] => "."
  | c0 :: tl =>
      let hasRoot := Ascii.eqb c0 SLASH in
      let r1 := dropWhile (fun c => Ascii.eqb c SLASH) (rev tl) in
      let r2 := dropWhile (fun c => negb (Ascii.eqb c SLASH)) r1 in
      match r2 with
      | [] => if hasRoot then "/" else "."
      | _ :: before =>
          if hasRoot && Nat.eqb (length before) 0 then "//"
          else string_of_list_ascii (c0 :: rev before)
      end
  end.

(** [fs.realpath] from a table: [(p, r)] says that [p] exists and is [r]
    once every symbolic link on the way is followed. *)
Fixpoint realpath (table : list (string * string)) (p : string) : FsResult :=
  match table with
  | [] => Failed "ENOENT"
  | (q, r) :: table' => if String.eqb q p then Resolved r else realpath table' p
  end.

(** [basename(path)] of a path without a slash at its end: what follows
    the last slash. *)
Definition basename (p : string) : string :=
  List.last (JS.split SLASH p) EmptyString.

(** Where a path that is not in the table is made: under the real path of
    its directory.  (The table has no links that dangle.) *)
Definition creates (table : list (string * string)) (p : string) : FsResult :=
  match realpath table (dirname p) with
  | Resolved r => Resolved (join [r; basename p])
  | Failed code => Failed code
  end.

(** A stand-in for [createTwoFilesPatch] of the 'diff' package: the two
    header lines, then the old text and the new text.  No theorem depends on
    what the patch looks like. *)
Definition plainPatch (oldName newName oldStr newStr oldHeader newHeader : string)
    : string :=
  "--- " +:+ oldName +:+ " " +:+ oldHeader +:+ String JS.LF
  ("+++ " +:+ newName +:+ " " +:+ newHeader +:+ String JS.LF
  ("-" +:+ oldStr +:+ String JS.LF ("+" +:+ newStr +:+ String JS.LF EmptyString))).

End Posix.

Definition posixHost (home cwd : string) (table : list (string * string)) : Host := {|
  homedir := home;
  cwd := cwd;
  isAbsolute := Posix.isAbsolute;
  normalize := Posix.normalize;
  resolve := Posix.resolve cwd;
  dirname := Posix.dirname;
  join := Posix.join;
  realpath := Posix.realpath table;
  creates := Posix.creates table;
  writeResult := fun _ _ => Written;
  createTwoFilesPatch := Posix.plainPatch;
|}.

(** ** Specification-level notions used by the theorems *)

Section ValidationNotions.
Context `{H : Host}.

(** What [validatePath] decides once the cache has no answer, as a function
    of the host alone. *)
Definition validateUncached (requestedPath : string) (config : Config)
    : Completion string :=
  let absolute := absoluteOf requestedPath in
  let dirs := allowedDirectories config in
  if negb (someStartsWith dirs (normalizePath absolute)) then
    Thrown (mkAccessDenied absolute None)
  else
    match realpath absolute with
    | Resolved realPath =>
        if someStartsWith dirs (normalizePath realPath) then Returned realPath
        else Thrown (mkAccessDenied absolute
               (Some "Access denied - symlink target outside allowed directories"))
    | Failed code =>
        if String.eqb code "ENOENT" then
          let parentDir := dirname absolute in
          match realpath parentDir with
          | Resolved realParentPath =>
              if someStartsWith dirs (normalizePath realParentPath)
              then Returned absolute
              else Thrown (mkAccessDenied parentDir
                     (Some "Access denied - parent directory outside allowed directories"))
          | Failed code' =>
              if String.eqb code' "ENOENT" then Thrown (PathNotFoundError parentDir)
              else Thrown (ErrnoException code')
          end
        else Thrown (ErrnoException code)
    end.

Definition cacheMiss (requestedPath : string) (s : Sys) : Prop :=
  JS.truthy (PathValidationCache.get requestedPath (pathCache s)) = false.

Definition withCached (k v : string) (s : Sys) : Sys :=
  mkSys (PathValidationCache.set k v (pathCache s)) (disk s).

(** The event loop reaching time [now] while the server is idle. *)
Definition elapse (now : Z) (s : Sys) : Sys :=
  mkSys (PathValidationCache.advance now (pathCache s)) (disk s).

(** Every stored answer is the one a fresh validation would give. *)
Definition cacheSound (config : Config) (c : PathValidationCache.t) : Prop :=
  forall k v, PathValidationCache.get k c = Some v ->
              validateUncached k config = Returned v.

(** The states a server with a fixed host and configuration goes through:
    it starts with an empty cache, serves validations, lets time pass, and
    file contents change. *)
Inductive reachable (config : Config) : Sys -> Prop :=
| reach_init maxSize ttlMs now d :
    reachable config (mkSys (PathValidationCache.new maxSize ttlMs now) d)
| reach_validate s requestedPath :
    reachable config s ->
    reachable config (snd (validatePath requestedPath config s))
| reach_advance s now :
    reachable config s ->
    reachable config (elapse now s)
| reach_disk s d :
    reachable config s ->
    reachable config (mkSys (pathCache s) d).

End ValidationNotions.

(** The JS [Map] invariant: keys are pairwise distinct. *)
Definition distinctKeys (c : PathValidationCache.t) : Prop :=
  List.NoDup (map fst (PathValidationCache.cache c)).


(** Time stays below [deadline] throughout the sequence. *)
Definition staysBefore (deadline : Z) (ops : list PathValidationCache.op) : Prop :=
  Forall (fun o => match o with
                   | PathValidationCache.OpAdvance now => now < deadline
                   | _ => True
                   end) ops.


(** ** Concrete settings for the examples *)

(** A POSIX machine on which [/allowed/link] is a symbolic link to
    [/etc/passwd], [/allowed/out] one to the directory [/outside], and
    [/allowed-dirX] a directory next to [/allowed-dir]. *)
Definition demoHost : Host :=
  posixHost "/home/u" "/srv"
    [("/srv", "/srv"); ("/srv/a", "/srv/a");
     ("/allowed", "/allowed");
     ("/allowed/notes.txt", "/allowed/notes.txt");
     ("/allowed/link", "/etc/passwd");
     ("/allowed/out", "/outside");
     ("/allowed-dir", "/allowed-dir");
     ("/allowed-dirX", "/allowed-dirX");
     ("/allowed-dirX/secret.txt", "/allowed-dirX/secret.txt")]%string.

(** A server just started: empty cache with the default capacity and TTL,
    and the given file contents. *)
Definition freshSys (files : gmap string string) : Sys :=
  mkSys (PathValidationCache.new 1000 60000 0) files.

(** The block of [n] lines of [contentLines] at offset [i], rejoined, is
    [normalizedOld]. *)
Definition matchesAt (contentLines : list string) (n : nat) (normalizedOld : string)
    (i : nat) : Prop :=
  (i + n <= length contentLines)%nat
  /\ JS.join JS.LF (JS.slice i (i + n) contentLines) = normalizedOld.

(** The edit's [oldText], with its line endings normalized, has an exact
    match in [document]: some block of whole lines equals it. *)
Definition hasExactMatch (document : string) (edit : EditOperation) : Prop :=
  let normalizedOld := JS.replaceCRLF (oldText edit) in
  exists i, matchesAt (JS.split JS.LF document)
                      (length (JS.split JS.LF normalizedOld)) normalizedOld i.

(** What [editFile] throws for empty [oldLines]. *)
Definition emptyOldTextError : JsError :=
  InvalidArgumentsError "edit_file" "Edit operation contains empty oldText".

(** Every location of the store is its own real path, as it is on a file
    system whose files all were there when the host was described. *)
Definition ownLocations `{H : Host} (s : Sys) : Prop :=
  forall p content, disk s !! p = Some content -> realpath p = Resolved p.

(** What [editFile] does at its end, once the diff is there: the file is
    rewritten unless [dryRun] is set, and a failure of the write is the
    failure of the call. *)
Definition finishEdit `{H : Host} (dryRun : bool) (validPath modifiedContent diff : string)
    (s : Sys) : Completion string * Sys :=
  if dryRun then (Returned diff, s)
  else match fsWriteFile validPath modifiedContent s with
       | (Returned _, s') => (Returned diff, s')
       | (Thrown e, s') => (Thrown e, s')
       end.

(** Line ends for writing documents down. *)
Definition crlf : string := String JS.CR (String JS.LF EmptyString).
Definition lf : string := String JS.LF EmptyString.

(** A two-line document with Windows line ends, and the same with Unix
    ones. *)
Definition crlfDocument : string := "alpha" +:+ crlf +:+ "beta".
Definition lfDocument : string := "alpha" +:+ lf +:+ "beta".

(** The demo configuration and requests on [/allowed/notes.txt]. *)
Definition demoConfig : Config := mkConfig ["/allowed"%string].
Definition notes : string := "/allowed/notes.txt".


(** ** Further notions: the cache *)

(** Every key in the map has a timeout pending for it, due no later than
    one timer delay from now. *)
Definition covered (c : PathValidationCache.t) : Prop :=
  forall k, In k (map fst (PathValidationCache.cache c)) ->
    exists d, In (d, k) (PathValidationCache.timeouts c)
              /\ d <= PathValidationCache.clock c
                      + PathValidationCache.timerDelay (PathValidationCache.ttl c).

(** ** Further settings for the examples *)

(** [demoHost] after [/allowed/notes.txt] was replaced by a symbolic link
    to [/etc/passwd]. *)
Definition retargetedHost : Host :=
  posixHost "/home/u" "/srv"
    [("/allowed", "/allowed"); ("/allowed/notes.txt", "/etc/passwd")]%string.


(** [demoHost] with no space left on the device: a write empties the file
    and fails. *)
Definition fullDiskHost : Host := {|
  homedir := @homedir demoHost;
  cwd := @cwd demoHost;
  isAbsolute := @isAbsolute demoHost;
  normalize := @normalize demoHost;
  resolve := @resolve demoHost;
  dirname := @dirname demoHost;
  join := @join demoHost;
  realpath := @realpath demoHost;
  creates := @creates demoHost;
  writeResult := fun _ _ => WriteFailed "ENOSPC" (Some EmptyString);
  createTwoFilesPatch := @createTwoFilesPatch demoHost;
|}.



(** ** Further notions: the patch engine *)

(** [s.includes(c)] for one character. *)
Fixpoint hasChar (c : ascii) (s : string) : bool :=
  match s with
  | EmptyString => false
  | String a s' => Ascii.eqb a c || hasChar c s'
  end.

(** Every string of the list is a line: it holds no line feed. *)
Definition allLines (ls : list string) : Prop :=
  Forall (fun l => hasChar JS.LF l = false) ls.

(** ** [readFile], [writeFile] (src/utils/tools.ts) and [validateFileSize]
    (src/utils/path.ts) *)

From Stdlib Require DecimalString.

(** [`${n}`] for an integer. *)
Definition showZ (n : Z) : string :=
  DecimalString.NilZero.string_of_int (Z.to_int n).

(** The [encoding] argument: ['utf-8'] and ['utf8'] name the same
    encoding. *)
Inductive Encoding : Type := UTF_8 | UTF8 | BASE64.

Definition isBase64 (e : Encoding) : bool :=
  match e with BASE64 => true | _ => false end.

(** What the model takes from the run time besides [Host].  Texts are
    UTF-8 on disk; what base64 reads and writes is left to [Buffer]. *)
Class Runtime : Type := {
  toBase64 : string -> string;            (* the file's bytes in base64 *)
  fromBase64 : string -> string;          (* the text of the bytes a base64 string holds *)
  base64ByteLength : string -> Z;         (* Buffer.byteLength(s, 'base64') *)
  directorySize : string -> Z;            (* stats.size of a directory *)
  mkdirRecursive : string -> option string;
    (* fs.mkdir(p, { recursive: true }): the error code, if it fails *)
}.

(** The length in bytes of a text in UTF-8, for code units below 256. *)
Fixpoint utf8Length (s : string) : Z :=
  match s with
  | EmptyString => 0
  | String c s' => (if Nat.ltb (nat_of_ascii c) 128 then 1 else 2) + utf8Length s'
  end.

Record ReadFileArgs : Type := mkReadFileArgs {
  readPath : string;
  readEncoding : Encoding;
}.

Record WriteFileArgs : Type := mkWriteFileArgs {
  writePath : string;
  writeContent : string;
  writeEncoding : Encoding;
}.

(** [Config] with its [security.maxFileSize]. *)
Record ToolsConfig : Type := mkToolsConfig {
  baseConfig : Config;
  maxFileSize : Z;
}.

Section FileTools.
Context `{H : Host} `{R : Runtime}.

(** [Buffer.byteLength(content, encoding)] *)
Definition byteLength (content : string) (encoding : Encoding) : Z :=
  if isBase64 encoding then base64ByteLength content else utf8Length content.

(** [(await fs.stat(p)).size]: links are followed. *)
Definition fsStatSize (p : string) : M Sys Z :=
  fun s => match entryAt s p with
           | File _ content => (Returned (utf8Length content), s)
           | Directory r => (Returned (directorySize r), s)
           | Missing code => (Thrown (ErrnoException code), s)
           end.

(** [fs.readFile(p, encoding)] *)
Definition fsReadFileAs (encoding : Encoding) (p : string) : M Sys string :=
  let* content := fsReadFile p in
  ret (if isBase64 encoding then toBase64 content else content).

(** [fs.mkdir(p, { recursive: true })] *)
Definition fsMkdir (p : string) : M Sys unit :=
  match mkdirRecursive p with
  | None => ret tt
  | Some code => throw (ErrnoException code)
  end.

(** The text a file holds once [content] is written to it in [encoding]. *)
Definition textOf (encoding : Encoding) (content : string) : string :=
  if isBase64 encoding then fromBase64 content else content.

(** [fs.writeFile(p, content, encoding)] *)
Definition fsWriteFileAs (encoding : Encoding) (p content : string) : M Sys unit :=
  fsWriteFile p (textOf encoding content).

Definition fileSizeMessage (size maxSize : Z) : string :=
  "File size exceeds limit: " +:+ showZ size +:+ " > " +:+ showZ maxSize +:+ " bytes".

(** [validateFileSize] of src/utils/path.ts; of the stats it returns the
    model keeps the size. *)
Definition validateFileSize (filepath : string) (maxSize : Z) : M Sys Z :=
  let* size := fsStatSize filepath in
  if size >? maxSize then throw (Error (fileSizeMessage size maxSize))
  else ret size.

(** [readFile] of src/utils/tools.ts *)
Definition readFile (args : ReadFileArgs) (config : ToolsConfig) : M Sys string :=
  tryCatch
    (let* validPath := validatePath (readPath args) (baseConfig config) in
     (* Validate file size before reading *)
     do (if maxFileSize config >? 0
         then (let* _ := validateFileSize validPath (maxFileSize config) in ret tt)
         else ret tt) in
     fsReadFileAs (readEncoding args) validPath)
    (fun error =>
       if isENOENT error then throw (PathNotFoundError (readPath args))
       else throw error).

(** [writeFile] of src/utils/tools.ts; its [catch] records a metric and
    rethrows. *)
Definition writeFile (args : WriteFileArgs) (config : ToolsConfig) : M Sys string :=
  let* validPath := validatePath (writePath args) (baseConfig config) in
  (* Check if content size exceeds limits *)
  do (if maxFileSize config >? 0 then
        let contentSize := byteLength (writeContent args) (writeEncoding args) in
        if contentSize >? maxFileSize config
        then throw (FileSizeError (writePath args) contentSize (maxFileSize config))
        else ret tt
      else ret tt) in
  (* Create parent directory if needed *)
  let parentDir := dirname validPath in
  do fsMkdir parentDir in
  (* Write the file *)
  do fsWriteFileAs (writeEncoding args) validPath (writeContent args) in
  ret ("Successfully wrote to " +:+ writePath args).

End FileTools.

(** A run time for the examples: directories report 4096 bytes, every
    directory can be made, and base64 is not used. *)
Definition demoRuntime : Runtime := {|
  toBase64 := fun s => s;
  fromBase64 := fun s => s;
  base64ByteLength := fun s => Z.of_nat (String.length s);
  directorySize := fun _ => 4096;
  mkdirRecursive := fun _ => None;
|}.

(** The demo configuration with a file size limit of [limit] bytes. *)
Definition demoTools (limit : Z) : ToolsConfig := mkToolsConfig demoConfig limit.

(** ** The metrics ([OperationMetrics], src/metrics/index.ts)

    Called by every tool of src/utils/tools.ts and by the request handler,
    with the tool name the client sent.  [operations] is a plain JS object
    used as a map, so a name that [Object.prototype] defines is found
    without ever being stored.  Times are JS numbers, whose arithmetic is a
    parameter; counts are integers. *)

Class Numbers : Type := {
  number : Type;
  numZero : number;                       (* 0 *)
  numPlus : number -> number -> number;   (* a + b *)
  numMinus : number -> number -> number;  (* a - b *)
  numPerCount : number -> Z -> number;    (* a / n *)
}.

Module OperationMetrics.
Section OperationMetrics.
Context `{N : Numbers}.

Record Data : Type := mkData {
  count : Z;
  errors : Z;
  totalTime : number;
}.

Record Result : Type := mkResult {
  resultCount : Z;
  resultErrors : Z;
  avgTime : number;
}.

(** The instance: the own properties of [operations], and [startTime]. *)
Record t : Type := mk {
  operations : gmap string Data;
  startTime : number;
}.

(** [new OperationMetrics()] at time [now]. *)
Definition new (now : number) : t := mk ∅ now.

(** The properties every object inherits from [Object.prototype]: for such
    a name [this.operations[name]] is a function (or the prototype itself),
    hence truthy, and what is assigned to its fields lands on that shared
    object, not in [operations]. *)
Definition inheritedNames : list string :=
  ["constructor"; "__defineGetter__"; "__defineSetter__"; "hasOwnProperty";
   "__lookupGetter__"; "__lookupSetter__"; "isPrototypeOf";
   "propertyIsEnumerable"; "toString"; "valueOf"; "__proto__";
   "toLocaleString"]%string.

Definition inherited (name : string) : bool :=
  existsb (String.eqb name) inheritedNames.

(** [if (!this.operations[name]) this.operations[name] = {count: 0, ...}] *)
Definition ensure (name : string) (ops : gmap string Data) : gmap string Data :=
  if inherited name then ops
  else match ops !! name with
       | Some _ => ops
       | None => <[name := mkData 0 0 numZero]> ops
       end.

(** [this.operations[name].f = g(this.operations[name].f)] on an entry that
    [ensure] has made sure of. *)
Definition update (name : string) (f : Data -> Data) (ops : gmap string Data)
    : gmap string Data :=
  if inherited name then ops
  else match ops !! name with
       | Some d => <[name := f d]> ops
       | None => ops
       end.

(** The closure [startOperation] returns: it remembers the name and the
    time it was made. *)
Record EndMetric : Type := mkEndMetric {
  endName : string;
  endStart : number;
}.

Definition startOperation (name : string) (now : number) (m : t) : EndMetric * t :=
  let ops := ensure name (operations m) in
  let ops := update name (fun d => mkData (count d + 1) (errors d) (totalTime d)) ops in
  (mkEndMetric name now, mk ops (startTime m)).

(** Calling the closure at time [now]:
    [this.operations[name].totalTime += duration], a [TypeError] when the
    entry is gone. *)
Definition endOperation (e : EndMetric) (now : number) (m : t) : Completion unit * t :=
  let duration := numMinus now (endStart e) in
  if inherited (endName e) then (Returned tt, m)
  else match operations m !! endName e with
       | Some d =>
           (Returned tt,
            mk (<[endName e := mkData (count d) (errors d) (numPlus (totalTime d) duration)]>
                  (operations m))
               (startTime m))
       | None =>
           (Thrown (Error "Cannot read properties of undefined (reading 'totalTime')"), m)
       end.

Definition recordError (name : string) (m : t) : t :=
  let ops := ensure name (operations m) in
  let ops := update name (fun d => mkData (count d) (errors d + 1) (totalTime d)) ops in
  mk ops (startTime m).

Definition toResult (d : Data) : Result :=
  mkResult (count d) (errors d)
    (if count d >? 0 then numPerCount (totalTime d) (count d) else numZero).

(** [getMetrics()] at time [now], as a map. *)
Definition getMetrics (now : number) (m : t) : gmap string Result :=
  <["uptime_ms"%string := mkResult 1 0 (numMinus now (startTime m))]>
    (toResult <$> operations m).

Definition reset (now : number) (m : t) : t := mk ∅ now.

(** What happens to the instance over time. *)
Inductive op : Type :=
| Start (name : string) (now : number)
| End (e : EndMetric) (now : number)
| Err (name : string)
| Reset (now : number).

Definition step (m : t) (o : op) : t :=
  match o with
  | Start name now => snd (startOperation name now m)
  | End e now => snd (endOperation e now m)
  | Err name => recordError name m
  | Reset now => reset now m
  end.

Definition run (ops : list op) (m : t) : t := fold_left step ops m.

(** The starts, and the errors, recorded under [name] since the last
    [reset]. *)
Definition starts (name : string) (ops : list op) : Z :=
  fold_left (fun n o => match o with
                        | Start name' _ => if String.eqb name' name then n + 1 else n
                        | Reset _ => 0
                        | _ => n
                        end) ops 0.

Definition failures (name : string) (ops : list op) : Z :=
  fold_left (fun n o => match o with
                        | Err name' => if String.eqb name' name then n + 1 else n
                        | Reset _ => 0
                        | _ => n
                        end) ops 0.

End OperationMetrics.
End OperationMetrics.

(** Numbers for the examples: whole milliseconds. *)
Definition wholeNumbers : Numbers := {|
  number := Z;
  numZero := 0;
  numPlus := Z.add;
  numMinus := Z.sub;
  numPerCount := Z.div;
|}.

(** What the instance holds for [name] agrees with the starts and errors
    recorded under it since the last reset; there is an entry exactly when
    there was one of either. *)
Definition tallied `{N : Numbers} (m : OperationMetrics.t)
    (ops : list OperationMetrics.op) (name : string) : Prop :=
  0 <= OperationMetrics.starts name ops /\ 0 <= OperationMetrics.failures name ops
  /\ match OperationMetrics.operations m !! name with
     | Some d => OperationMetrics.count d = OperationMetrics.starts name ops
                 /\ OperationMetrics.errors d = OperationMetrics.failures name ops
                 /\ 0 < OperationMetrics.starts name ops
                       + OperationMetrics.failures name ops
     | None => OperationMetrics.starts name ops = 0
               /\ OperationMetrics.failures name ops = 0
     end.

(** Some tool calls: two reads, one of them failing, a call named like the
    uptime entry and one named like a method of every object. *)
Definition demoMetricsOps : list (@OperationMetrics.op wholeNumbers) :=
  [@OperationMetrics.Start wholeNumbers "read_file" 5;
   @OperationMetrics.Err wholeNumbers "read_file";
   @OperationMetrics.Start wholeNumbers "read_file" 7;
   @OperationMetrics.Start wholeNumbers "uptime_ms" 8;
   @OperationMetrics.Start wholeNumbers "toString" 9;
   @OperationMetrics.Err wholeNumbers "toString"].
(** * Properties *)

(** Node's documented examples for [node:path]. *)
Example posix_normalize_doc :
  Posix.normalize "/foo/bar//baz/asdf/quux/.." = "/foo/bar/baz/asdf"%string.
Proof. reflexivity. Qed.

Example posix_resolve_doc :
  Posix.resolve "/home/user" ["/foo/bar"; "./baz"] = "/foo/bar/baz"%string
  /\ Posix.resolve "/home/user" ["/foo/bar"; "/tmp/file/"] = "/tmp/file"%string
  /\ Posix.resolve "/home/user" ["wwwroot"; "static_files/png/"; "../gif/image.gif"]
     = "/home/user/wwwroot/static_files/gif/image.gif"%string.
Proof. repeat split; reflexivity. Qed.

Example posix_join_doc :
  Posix.join ["/foo"; "bar"; "baz/asdf"; "quux"; ".."] = "/foo/bar/baz/asdf"%string.
Proof. reflexivity. Qed.

Example posix_dirname_doc :
  Posix.dirname "/foo/bar/baz/asdf/quux" = "/foo/bar/baz/asdf"%string
  /\ Posix.dirname "/foo" = "/"%string
  /\ Posix.dirname "/" = "/"%string
  /\ Posix.dirname "foo" = "."%string
  /\ Posix.dirname "/foo/bar/" = "/foo"%string.
Proof. repeat split; reflexivity. Qed.

(** ** [validatePath] of src/utils/path.ts *)

Section ValidationProperties.
Context `{H : Host}.

(** On a cache miss [validatePath] is [validateUncached], and a success is
    written to the cache before it is returned. *)
Lemma validatePath_miss requestedPath config s :
  cacheMiss requestedPath s ->
  validatePath requestedPath config s =
    match validateUncached requestedPath config with
    | Returned v => (Returned v, withCached requestedPath v s)
    | Thrown e => (Thrown e, s)
    end.
Proof.
  unfold cacheMiss, validatePath, validateUncached, bind, gets. intros ->.
  destruct (someStartsWith _ (normalizePath (absoluteOf requestedPath))); simpl; [|reflexivity].
  unfold tryCatch, bind, fsRealpath.
  destruct (realpath (absoluteOf requestedPath)) as [real|code]; simpl.
  - destruct (someStartsWith _ (normalizePath real)); reflexivity.
  - unfold isENOENT; simpl. destruct (String.eqb code "ENOENT"); [|reflexivity].
    unfold tryCatch, bind.
    destruct (realpath (dirname (absoluteOf requestedPath))) as [rp|code']; simpl.
    + destruct (someStartsWith _ (normalizePath rp)); reflexivity.
    + destruct (String.eqb code' "ENOENT"); reflexivity.
Qed.

(** On a hit the stored path is returned and nothing is resolved. *)
Lemma validatePath_hit requestedPath config s v :
  PathValidationCache.get requestedPath (pathCache s) = Some v ->
  v <> EmptyString ->
  validatePath requestedPath config s = (Returned v, s).
Proof.
  unfold validatePath, bind, gets. intros -> Hv.
  destruct v; [congruence|reflexivity].
Qed.

(** [validatePath] never touches the file store. *)
Lemma validatePath_disk requestedPath config s :
  disk (snd (validatePath requestedPath config s)) = disk s.
Proof.
  destruct (JS.truthy (PathValidationCache.get requestedPath (pathCache s))) eqn:E.
  - unfold validatePath, bind, gets. rewrite E. reflexivity.
  - rewrite validatePath_miss by exact E.
    destruct (validateUncached requestedPath config); reflexivity.
Qed.

End ValidationProperties.

(** ** The validation cache *)

Section CacheProperties.

Local Abbreviation mapGet := PathValidationCache.mapGet.
Local Abbreviation mapSet := PathValidationCache.mapSet.
Local Abbreviation mapDelete := PathValidationCache.mapDelete.
Local Abbreviation firstKey := PathValidationCache.firstKey.

Implicit Types (m : list (string * string)) (k v : string)
  (c : PathValidationCache.t).

Lemma mapGet_mapSet m k v k' :
  mapGet k' (mapSet k v m) = if String.eqb k k' then Some v else mapGet k' m.
Proof.
  induction m as [|[k0 v0] m IH]; simpl.
  - reflexivity.
  - destruct (String.eqb k0 k) eqn:E0; simpl.
    + apply String.eqb_eq in E0; subst k0.
      destruct (String.eqb k k'); reflexivity.
    + rewrite IH. destruct (String.eqb k0 k') eqn:E1; [|reflexivity].
      apply String.eqb_eq in E1; subst k0. rewrite String.eqb_sym, E0. reflexivity.
Qed.

Lemma mapGet_mapDelete m k k' :
  mapGet k' (mapDelete k m) = if String.eqb k k' then None else mapGet k' m.
Proof.
  unfold mapDelete. induction m as [|[k0 v0] m IH]; simpl.
  - destruct (String.eqb k k'); reflexivity.
  - destruct (String.eqb k0 k) eqn:E0; simpl.
    + apply String.eqb_eq in E0; subst k0. rewrite IH.
      destruct (String.eqb k k'); reflexivity.
    + rewrite IH. destruct (String.eqb k0 k') eqn:E1; [|reflexivity].
      apply String.eqb_eq in E1; subst k0. rewrite String.eqb_sym, E0. reflexivity.
Qed.

Lemma mapGet_None_keys m k : mapGet k m = None <-> ~ In k (map fst m).
Proof.
  induction m as [|[k0 v0] m IH]; simpl.
  - tauto.
  - destruct (String.eqb k0 k) eqn:E.
    + apply String.eqb_eq in E. split; [discriminate|tauto].
    + apply String.eqb_neq in E. rewrite IH. tauto.
Qed.

Lemma keys_mapDelete m k k' :
  In k' (map fst (mapDelete k m)) <-> In k' (map fst m) /\ k' <> k.
Proof.
  unfold mapDelete. rewrite !in_map_iff. split.
  - intros [[a b] [<- Hin]]. apply filter_In in Hin as [Hin Hne]. simpl in *.
    split; [exists (a, b); auto|].
    apply negb_true_iff, String.eqb_neq in Hne. exact Hne.
  - intros [[[a b] [<- Hin]] Hne]. exists (a, b). split; [reflexivity|].
    apply filter_In. split; [exact Hin|]. simpl in *.
    apply negb_true_iff, String.eqb_neq. exact Hne.
Qed.

Lemma keys_mapSet m k v k' :
  In k' (map fst (mapSet k v m)) <-> In k' (map fst m) \/ k' = k.
Proof.
  induction m as [|[k0 v0] m IH]; simpl.
  - intuition.
  - destruct (String.eqb k0 k) eqn:E; simpl.
    + apply String.eqb_eq in E; subst. intuition.
    + rewrite IH. intuition.
Qed.

Lemma NoDup_mapDelete m k : List.NoDup (map fst m) -> List.NoDup (map fst (mapDelete k m)).
Proof.
  unfold mapDelete. induction m as [|[k0 v0] m IH]; simpl; intros Hnd.
  - constructor.
  - apply NoDup_cons_iff in Hnd as [Hni Hnd].
    destruct (negb (String.eqb k0 k)); simpl; [|auto].
    apply NoDup_cons_iff. split; [|auto].
    intros Hin. apply Hni. apply (keys_mapDelete m k k0). exact Hin.
Qed.

Lemma NoDup_mapSet m k v : List.NoDup (map fst m) -> List.NoDup (map fst (mapSet k v m)).
Proof.
  induction m as [|[k0 v0] m IH]; simpl; intros Hnd.
  - repeat constructor. simpl. tauto.
  - apply NoDup_cons_iff in Hnd as [Hni Hnd].
    destruct (String.eqb k0 k) eqn:E; simpl.
    + apply String.eqb_eq in E; subst. apply NoDup_cons_iff; auto.
    + apply String.eqb_neq in E. apply NoDup_cons_iff. split; [|auto].
      rewrite keys_mapSet. tauto.
Qed.

Lemma length_mapSet m k v :
  length (mapSet k v m) =
    match mapGet k m with Some _ => length m | None => S (length m) end.
Proof.
  induction m as [|[k0 v0] m IH]; simpl.
  - reflexivity.
  - destruct (String.eqb k0 k); simpl; [reflexivity|].
    rewrite IH. destruct (mapGet k m); reflexivity.
Qed.

Lemma mapDelete_absent m k : ~ In k (map fst m) -> mapDelete k m = m.
Proof.
  unfold mapDelete. induction m as [|[k0 v0] m IH]; simpl; intros Hni.
  - reflexivity.
  - destruct (String.eqb k0 k) eqn:E.
    + apply String.eqb_eq in E. tauto.
    + simpl. f_equal. apply IH. tauto.
Qed.

(** Deleting the first key of a map drops exactly the first entry. *)
Lemma mapDelete_first m k v :
  List.NoDup (map fst ((k, v) :: m)) -> mapDelete k ((k, v) :: m) = m.
Proof.
  intros Hnd. apply NoDup_cons_iff in Hnd as [Hni _].
  unfold mapDelete. simpl. rewrite String.eqb_refl. simpl.
  apply (mapDelete_absent m k Hni).
Qed.


(** The timers fired by [advance] delete their keys and nothing else. *)
Lemma mapGet_fired (fired : list (Z * string)) m k :
  mapGet k (fold_left (fun m tm => mapDelete (snd tm) m) fired m) =
    if existsb (fun tm => String.eqb (snd tm) k) fired then None else mapGet k m.
Proof.
  revert m. induction fired as [|[d k0] fired IH]; intros m; simpl.
  - reflexivity.
  - rewrite IH, mapGet_mapDelete.
    destruct (String.eqb k0 k); simpl; [|reflexivity].
    destruct (existsb _ fired); reflexivity.
Qed.

Lemma NoDup_fired (fired : list (Z * string)) m :
  List.NoDup (map fst m) ->
  List.NoDup (map fst (fold_left (fun m tm => mapDelete (snd tm) m) fired m)).
Proof.
  revert m. induction fired as [|tm fired IH]; intros m Hnd; simpl; [exact Hnd|].
  apply IH, NoDup_mapDelete, Hnd.
Qed.


Lemma keys_fired (fired : list (Z * string)) m k :
  In k (map fst (fold_left (fun m tm => mapDelete (snd tm) m) fired m)) ->
  In k (map fst m).
Proof.
  revert m. induction fired as [|tm fired IH]; intros m; simpl; [auto|].
  intros Hin. apply IH in Hin. apply keys_mapDelete in Hin. tauto.
Qed.

End CacheProperties.

Section CacheBehaviour.

Local Abbreviation mapGet := PathValidationCache.mapGet.
Local Abbreviation mapSet := PathValidationCache.mapSet.
Local Abbreviation mapDelete := PathValidationCache.mapDelete.
Local Abbreviation get := PathValidationCache.get.
Local Abbreviation set := PathValidationCache.set.
Local Abbreviation advance := PathValidationCache.advance.
Local Abbreviation size := PathValidationCache.size.
Local Abbreviation cache := PathValidationCache.cache.
Local Abbreviation maxSize := PathValidationCache.maxSize.
Local Abbreviation ttl := PathValidationCache.ttl.
Local Abbreviation clock := PathValidationCache.clock.
Local Abbreviation timeouts := PathValidationCache.timeouts.
Local Abbreviation timerDelay := PathValidationCache.timerDelay.
Local Abbreviation run := PathValidationCache.run.
Local Abbreviation step := PathValidationCache.step.

Implicit Types (m : list (string * string)) (k v : string)
  (c : PathValidationCache.t).

Lemma truthy_Some k : JS.truthy (Some k) = true <-> k <> EmptyString.
Proof. destruct k; simpl; split; congruence. Qed.

(** The map [set] leaves behind: the map after the capacity check, with the
    key set. *)
Lemma cache_set_below c k v :
  size c < maxSize c -> cache (set k v c) = mapSet k v (cache c).
Proof.
  intros Hlt. unfold PathValidationCache.set; simpl.
  destruct (Z.geb_spec (size c) (maxSize c)); [lia|reflexivity].
Qed.

(** At capacity the first entry, if its key is not the empty string, is
    dropped, every other entry stays in place, and the key is set. *)
Lemma cache_set_full c k v k0 v0 rest :
  distinctKeys c ->
  cache c = (k0, v0) :: rest ->
  k0 <> EmptyString ->
  maxSize c <= size c ->
  cache (set k v c) = mapSet k v rest.
Proof.
  intros Hnd Hc Hk0 Hfull. unfold PathValidationCache.set; simpl.
  destruct (Z.geb_spec (size c) (maxSize c)); [|lia].
  unfold distinctKeys in Hnd. rewrite Hc in *.
  unfold PathValidationCache.firstKey.
  apply truthy_Some in Hk0. rewrite Hk0.
  change (default EmptyString (Some k0)) with k0.
  rewrite mapDelete_first by exact Hnd. reflexivity.
Qed.

Lemma get_set_same c k v : get k (set k v c) = Some v.
Proof.
  unfold PathValidationCache.get, PathValidationCache.set; simpl.
  rewrite mapGet_mapSet, String.eqb_refl. reflexivity.
Qed.

Lemma get_set_inv c k v k' v' :
  get k' (set k v c) = Some v' ->
  (k' = k /\ v' = v) \/ get k' c = Some v'.
Proof.
  unfold PathValidationCache.get, PathValidationCache.set; simpl.
  rewrite mapGet_mapSet. destruct (String.eqb k k') eqn:E.
  - apply String.eqb_eq in E. intros [= <-]. auto.
  - intros Hg. right.
    destruct (size c >=? maxSize c); [|exact Hg].
    destruct (JS.truthy _); [|exact Hg].
    rewrite mapGet_mapDelete in Hg.
    destruct (String.eqb (default EmptyString _) k'); [discriminate|exact Hg].
Qed.

Lemma get_advance_inv c now k v :
  get k (advance now c) = Some v -> get k c = Some v.
Proof.
  unfold PathValidationCache.get, PathValidationCache.advance; simpl.
  rewrite mapGet_fired. destruct (existsb _ _); [discriminate|auto].
Qed.

Lemma distinctKeys_set c k v : distinctKeys c -> distinctKeys (set k v c).
Proof.
  unfold distinctKeys, PathValidationCache.set; simpl. intros Hnd.
  apply NoDup_mapSet.
  destruct (size c >=? maxSize c); [|exact Hnd].
  destruct (JS.truthy _); [|exact Hnd].
  apply NoDup_mapDelete, Hnd.
Qed.

Lemma distinctKeys_advance c now : distinctKeys c -> distinctKeys (advance now c).
Proof. unfold distinctKeys, PathValidationCache.advance; simpl. apply NoDup_fired. Qed.

Lemma distinctKeys_run ops c : distinctKeys c -> distinctKeys (run ops c).
Proof.
  revert c. induction ops as [|o ops IH]; intros c Hnd; simpl; [exact Hnd|].
  apply IH. destruct o; simpl; auto using distinctKeys_set, distinctKeys_advance.
Qed.

Lemma distinctKeys_new ms t now : distinctKeys (PathValidationCache.new ms t now).
Proof. constructor. Qed.

(** *** The capacity bound, for non-empty keys and a capacity of at least one *)








(** *** Timers *)

Lemma timeouts_set c k v :
  timeouts (set k v c) = timeouts c ++ [(clock c + timerDelay (ttl c), k)].
Proof. reflexivity. Qed.

Lemma clock_set c k v : clock (set k v c) = clock c.
Proof. reflexivity. Qed.

Lemma ttl_step c o : ttl (step c o) = ttl c.
Proof. destruct o; reflexivity. Qed.

Lemma ttl_run ops c : ttl (run ops c) = ttl c.
Proof.
  revert c. induction ops as [|o ops IH]; intros c; simpl; [reflexivity|].
  rewrite IH. apply ttl_step.
Qed.

Lemma timerDelay_in_range ms : 1 <= ms <= 2147483647 -> timerDelay ms = ms.
Proof.
  intros Hr. unfold PathValidationCache.timerDelay.
  destruct (Z.ltb_spec ms 1); [lia|]. destruct (Z.ltb_spec 2147483647 ms); [lia|].
  reflexivity.
Qed.

Lemma timerDelay_pos ms : 1 <= timerDelay ms.
Proof.
  unfold PathValidationCache.timerDelay.
  destruct (Z.ltb_spec ms 1); simpl; [lia|].
  destruct (Z.ltb_spec 2147483647 ms); lia.
Qed.

(** A pending timeout stays pending while time stays before its deadline:
    no operation cancels it. *)
Lemma pending_step c o d k :
  In (d, k) (timeouts c) ->
  match o with PathValidationCache.OpAdvance now => now < d | _ => True end ->
  In (d, k) (timeouts (step c o)).
Proof.
  intros Hin Ho. destruct o as [p|p v|now]; simpl.
  - exact Hin.
  - apply in_or_app. left. exact Hin.
  - apply filter_In. split; [exact Hin|].
    unfold PathValidationCache.due. simpl. apply negb_true_iff, Z.leb_gt. exact Ho.
Qed.

Lemma pending_run ops c d k :
  In (d, k) (timeouts c) -> staysBefore d ops -> In (d, k) (timeouts (run ops c)).
Proof.
  revert c. induction ops as [|o ops IH]; intros c Hin Hops; simpl; [exact Hin|].
  apply Forall_cons_iff in Hops as [Ho Hops].
  apply IH; [|exact Hops]. apply pending_step; assumption.
Qed.

(** When its deadline is reached a pending timeout deletes its key, whatever
    value the key holds by then. *)
Lemma get_after_deadline c d k now :
  In (d, k) (timeouts c) -> d <= now -> get k (advance now c) = None.
Proof.
  intros Hin Hd. unfold PathValidationCache.get, PathValidationCache.advance; simpl.
  rewrite mapGet_fired.
  replace (existsb _ _) with true; [reflexivity|].
  symmetry. apply existsb_exists. exists (d, k). split.
  - apply filter_In. split; [exact Hin|].
    unfold PathValidationCache.due. simpl. apply Z.leb_le. exact Hd.
  - simpl. apply String.eqb_refl.
Qed.

Lemma clock_step_le c o : clock c <= clock (step c o).
Proof. destruct o; simpl; lia. Qed.

Lemma clock_run_le ops c : clock c <= clock (run ops c).
Proof.
  revert c. induction ops as [|o ops IH]; intros c; simpl; [lia|].
  etransitivity; [apply clock_step_le|apply IH].
Qed.

Lemma clock_step_before c o d :
  clock c < d ->
  match o with PathValidationCache.OpAdvance now => now < d | _ => True end ->
  clock (step c o) < d.
Proof. destruct o; simpl; lia. Qed.

Lemma clock_run_before ops c d :
  clock c < d -> staysBefore d ops -> clock (run ops c) < d.
Proof.
  revert c. induction ops as [|o ops IH]; intros c Hc Hops; simpl; [exact Hc|].
  apply Forall_cons_iff in Hops as [Ho Hops].
  apply IH; [|exact Hops]. apply clock_step_before; assumption.
Qed.

(** C9, for a TTL that Node takes as a timer delay (1 to 2^31-1
    milliseconds).  A [set] of [path] appends a timeout for [path] at the
    current time plus the TTL and keeps every timeout already pending.  So
    when [path] is set at time [t0], anything happens while time stays
    before [t0 + ttl], and [path] is set again, the second value is in the
    cache, yet it is gone as soon as the clock reaches [t0 + ttl], the
    deadline of the first timeout: that is before the second value's own
    deadline whenever the second [set] came later than the first. *)
Theorem C9_stale_timer_deletes_fresh_entry c path v1 v2 ops :
  let t0 := clock c in
  let c1 := set path v1 c in
  let c2 := run ops c1 in
  let c3 := set path v2 c2 in
  let c4 := advance (t0 + ttl c) c3 in
  1 <= ttl c <= 2147483647 ->
  staysBefore (t0 + ttl c) ops ->
  timeouts c1 = timeouts c ++ [(t0 + ttl c, path)]
  /\ timeouts c3 = timeouts c2 ++ [(clock c2 + ttl c, path)]
  /\ In (t0 + ttl c, path) (timeouts c3)
  /\ get path c3 = Some v2
  /\ get path c4 = None
  /\ clock c4 = t0 + ttl c
  /\ (t0 < clock c2 -> clock c4 < clock c2 + ttl c).
Proof.
  intros t0 c1 c2 c3 c4 Httl Hops.
  pose proof (timerDelay_in_range (ttl c) Httl) as Hdelay.
  assert (Hp1 : In (t0 + ttl c, path) (timeouts c1)).
  { subst c1. rewrite timeouts_set, Hdelay. apply in_or_app. right. left. reflexivity. }
  assert (Hp3 : In (t0 + ttl c, path) (timeouts c3)).
  { subst c3. rewrite timeouts_set. apply in_or_app. left.
    apply pending_run; assumption. }
  assert (Hclk : clock c2 < t0 + ttl c).
  { subst c2. apply clock_run_before; [|exact Hops].
    subst c1. rewrite clock_set. subst t0. lia. }
  repeat split.
  - subst c1. rewrite timeouts_set, Hdelay. reflexivity.
  - subst c3 c2 c1. rewrite timeouts_set, ttl_run.
    change (ttl (set path v1 c)) with (ttl c). rewrite Hdelay. reflexivity.
  - exact Hp3.
  - apply get_set_same.
  - apply (get_after_deadline c3 (t0 + ttl c) path); [exact Hp3|lia].
  - subst c4 c3. simpl. change (clock (set path v2 c2)) with (clock c2). lia.
  - intros Hlater. subst c4 c3. simpl. change (clock (set path v2 c2)) with (clock c2). lia.
Qed.

(** A run of C9 on the default cache: set at 0, set again at 1000, gone at
    60000 although the second entry is due to expire only at 61000. *)
Lemma C9_stale_timer_witness :
  let c := PathValidationCache.new 1000 60000 0 in
  let c3 := set "/srv/a" "/data/a2"
              (run [PathValidationCache.OpAdvance 1000] (set "/srv/a" "/data/a1" c)) in
  get "/srv/a" c3 = Some "/data/a2"%string
  /\ get "/srv/a" (advance 60000 c3) = None
  /\ In (61000, "/srv/a"%string) (timeouts c3).
Proof.
  pose proof (C9_stale_timer_deletes_fresh_entry
                (PathValidationCache.new 1000 60000 0) "/srv/a" "/data/a1" "/data/a2"
                [PathValidationCache.OpAdvance 1000]) as Hw.
  simpl in Hw.
  assert (Hr : 1 <= 60000 <= 2147483647) by lia.
  assert (Hb : staysBefore 60000 [PathValidationCache.OpAdvance 1000]).
  { repeat constructor. }
  destruct (Hw Hr Hb) as (_ & _ & _ & Hg3 & Hg4 & _).
  split; [exact Hg3|]. split; [exact Hg4|].
  vm_compute. tauto.
Defined.

(** C9 as stated, with the deletion "at TTL after that set" for every TTL,
    fails outside that range: [setTimeout] takes a delay below 1 or above
    2^31-1 as 1.  With a TTL of 2^31 milliseconds the timeout of a [set] at
    time 0 is due at time 1, not at time 2^31, and the entry is gone by
    then; with a TTL of 0 the entry is still there at time 0. *)
Lemma C9_ttl_outside_timer_range_is_not_the_delay :
  let long := set "/srv/a" "/data/a" (PathValidationCache.new 1000 2147483648 0) in
  let none := set "/srv/a" "/data/a" (PathValidationCache.new 1000 0 0) in
  timeouts long = [(1, "/srv/a"%string)]
  /\ timeouts long <> [(clock long + ttl long, "/srv/a"%string)]
  /\ get "/srv/a" (advance 1 long) = None
  /\ timeouts none = [(1, "/srv/a"%string)]
  /\ timeouts none <> [(clock none + ttl none, "/srv/a"%string)]
  /\ get "/srv/a" (advance (clock none + ttl none) none) = Some "/data/a"%string.
Proof.
  repeat split; try (vm_compute; reflexivity); vm_compute; discriminate.
Qed.

(** *** Eviction at capacity *)

(** With distinct keys and a first key that is not the empty string, a [set]
    of a key already present, made at capacity, drops the first entry and
    leaves one entry less than the capacity. *)
Lemma set_existing_at_capacity c k v old k0 v0 rest :
  distinctKeys c ->
  cache c = (k0, v0) :: rest ->
  k0 <> EmptyString ->
  size c = maxSize c ->
  get k c = Some old -> k <> k0 ->
  get k0 (set k v c) = None
  /\ get k (set k v c) = Some v
  /\ size (set k v c) = maxSize c - 1.
Proof.
  intros Hnd Hc Hk0 Hsz Hget Hne.
  assert (Hfull : maxSize c <= size c) by lia.
  pose proof (cache_set_full c k v k0 v0 rest Hnd Hc Hk0 Hfull) as Heq.
  unfold distinctKeys in Hnd. rewrite Hc in Hnd. simpl in Hnd.
  apply NoDup_cons_iff in Hnd as [Hni _].
  unfold PathValidationCache.get in Hget. rewrite Hc in Hget. simpl in Hget.
  assert (E : String.eqb k0 k = false) by (apply String.eqb_neq; congruence).
  rewrite E in Hget.
  split; [|split].
  - unfold PathValidationCache.get. rewrite Heq, mapGet_mapSet.
    assert (E' : String.eqb k k0 = false) by (apply String.eqb_neq; congruence).
    rewrite E'. apply mapGet_None_keys. exact Hni.
  - apply get_set_same.
  - unfold PathValidationCache.size in *. rewrite Heq, length_mapSet, Hget.
    rewrite <- Hsz, Hc. simpl length. lia.
Qed.

End CacheBehaviour.

(** C8. A cache of capacity 1 that first stores the empty string as key (the empty
    request, which [validatePath] resolves to the working directory) and then
    another key holds two entries: the first key is falsy, so the test
    [if (oldestKey)] skips the eviction. *)
Theorem C8_empty_key_exceeds_capacity :
  let c := PathValidationCache.run
             [PathValidationCache.OpSet EmptyString "/srv";
              PathValidationCache.OpSet "/srv/a" "/srv/a"]
             (PathValidationCache.new 1 60000 0) in
  PathValidationCache.maxSize c = 1
  /\ PathValidationCache.cache c = [(EmptyString, "/srv"%string); ("/srv/a"%string, "/srv/a"%string)]
  /\ PathValidationCache.size c = 2.
Proof. repeat split. Qed.

(** C10. A cache of capacity 2 holding the empty string and [/srv/a] as keys is at
    capacity; setting ["/srv/a"] again evicts nothing, because the oldest key
    is the empty string. *)
Theorem C10_empty_oldest_key_not_evicted :
  let c := PathValidationCache.run
             [PathValidationCache.OpSet EmptyString "/srv";
              PathValidationCache.OpSet "/srv/a" "/srv/a"]
             (PathValidationCache.new 2 60000 0) in
  let c' := PathValidationCache.set "/srv/a" "/srv/a2" c in
  PathValidationCache.size c = PathValidationCache.maxSize c
  /\ PathValidationCache.firstKey (PathValidationCache.cache c) = Some EmptyString
  /\ PathValidationCache.get EmptyString c' = Some "/srv"%string
  /\ PathValidationCache.cache c' = [(EmptyString, "/srv"%string); ("/srv/a"%string, "/srv/a2"%string)]
  /\ PathValidationCache.size c' = PathValidationCache.maxSize c'.
Proof. repeat split. Qed.

(** The same update with a non-empty oldest key: the oldest entry goes and
    the cache is left one below capacity. *)
Example set_existing_at_capacity_run :
  let c := PathValidationCache.run
             [PathValidationCache.OpSet "/srv" "/srv";
              PathValidationCache.OpSet "/srv/a" "/srv/a"]
             (PathValidationCache.new 2 60000 0) in
  let c' := PathValidationCache.set "/srv/a" "/srv/a2" c in
  PathValidationCache.cache c' = [("/srv/a"%string, "/srv/a2"%string)]
  /\ PathValidationCache.size c' = 1.
Proof. repeat split. Qed.

(** ** [validatePath] with its cache *)

Section ValidationWithCache.
Context `{H : Host}.
Variable config : Config.

Lemma cacheSound_new ms t now : cacheSound config (PathValidationCache.new ms t now).
Proof. intros k v Hg. discriminate Hg. Qed.

Lemma cacheSound_set c k v :
  validateUncached k config = Returned v ->
  cacheSound config c -> cacheSound config (PathValidationCache.set k v c).
Proof.
  intros Hv Hs k' v' Hg. apply get_set_inv in Hg as [[-> ->]|Hg]; auto.
Qed.

Lemma cacheSound_advance c now :
  cacheSound config c -> cacheSound config (PathValidationCache.advance now c).
Proof. intros Hs k v Hg. apply get_advance_inv in Hg. auto. Qed.

(** With a sound cache the answer of [validatePath] is the uncached one, and
    the cache stays sound. *)
Lemma validatePath_sound requestedPath s :
  cacheSound config (pathCache s) ->
  fst (validatePath requestedPath config s) = validateUncached requestedPath config
  /\ cacheSound config (pathCache (snd (validatePath requestedPath config s))).
Proof.
  intros Hs.
  destruct (PathValidationCache.get requestedPath (pathCache s)) as [v|] eqn:Hg.
  - destruct v as [|a v].
    + assert (Hm : cacheMiss requestedPath s) by (unfold cacheMiss; rewrite Hg; reflexivity).
      rewrite (validatePath_miss _ _ _ Hm). apply Hs in Hg. rewrite Hg. simpl.
      split; [reflexivity|]. apply cacheSound_set; assumption.
    + rewrite (validatePath_hit _ _ _ _ Hg) by discriminate. simpl.
      split; [symmetry; apply Hs, Hg|exact Hs].
  - assert (Hm : cacheMiss requestedPath s) by (unfold cacheMiss; rewrite Hg; reflexivity).
    rewrite (validatePath_miss _ _ _ Hm).
    destruct (validateUncached requestedPath config) as [v|e] eqn:Hv; simpl.
    + split; [reflexivity|]. apply cacheSound_set; assumption.
    + split; [reflexivity|exact Hs].
Qed.

Lemma reachable_sound s : reachable config s -> cacheSound config (pathCache s).
Proof.
  induction 1 as [ms t now d|s r _ IH|s now _ IH|s d _ IH]; simpl.
  - apply cacheSound_new.
  - apply validatePath_sound, IH.
  - apply cacheSound_advance, IH.
  - exact IH.
Qed.

(** In every state the server reaches, cached or not, [validatePath] answers
    as the full check does. *)
Theorem validatePath_reachable requestedPath s :
  reachable config s ->
  fst (validatePath requestedPath config s) = validateUncached requestedPath config.
Proof. intros Hr. apply validatePath_sound, reachable_sound, Hr. Qed.

(** A path whose real path is outside every allowed directory is denied with
    [AccessDeniedError], also when the path itself is inside one. *)
Theorem validatePath_real_outside_denied requestedPath s realPath :
  reachable config s ->
  realpath (absoluteOf requestedPath) = Resolved realPath ->
  someStartsWith (allowedDirectories config) (normalizePath realPath) = false ->
  exists message,
    fst (validatePath requestedPath config s)
    = Thrown (AccessDeniedError (absoluteOf requestedPath) message).
Proof.
  intros Hr Hreal Hout. rewrite (validatePath_reachable _ _ Hr).
  unfold validateUncached. rewrite Hreal, Hout.
  destruct (someStartsWith _ (normalizePath (absoluteOf requestedPath))); simpl;
    eexists; reflexivity.
Qed.

(** A missing path whose parent resolves outside every allowed directory is
    denied with [AccessDeniedError], not reported as not found. *)
Theorem validatePath_parent_outside_denied requestedPath s realParentPath :
  reachable config s ->
  realpath (absoluteOf requestedPath) = Failed "ENOENT" ->
  realpath (dirname (absoluteOf requestedPath)) = Resolved realParentPath ->
  someStartsWith (allowedDirectories config) (normalizePath realParentPath) = false ->
  exists p message,
    fst (validatePath requestedPath config s) = Thrown (AccessDeniedError p message).
Proof.
  intros Hr Hreal Hparent Hout. rewrite (validatePath_reachable _ _ Hr).
  unfold validateUncached. rewrite Hreal, Hparent, Hout.
  destruct (someStartsWith _ (normalizePath (absoluteOf requestedPath))); simpl;
    do 2 eexists; reflexivity.
Qed.

(** [PathNotFoundError] names the parent and is thrown only when neither the
    path nor its parent resolves. *)
Theorem validatePath_not_found_only_missing_parent requestedPath s p :
  reachable config s ->
  fst (validatePath requestedPath config s) = Thrown (PathNotFoundError p) ->
  p = dirname (absoluteOf requestedPath)
  /\ realpath (absoluteOf requestedPath) = Failed "ENOENT"
  /\ realpath p = Failed "ENOENT".
Proof.
  intros Hr. rewrite (validatePath_reachable _ _ Hr). unfold validateUncached.
  destruct (someStartsWith _ (normalizePath (absoluteOf requestedPath)));
    simpl; [|discriminate].
  destruct (realpath (absoluteOf requestedPath)) as [rp|code] eqn:Hreal.
  - destruct (someStartsWith _ (normalizePath rp)); discriminate.
  - destruct (String.eqb code "ENOENT") eqn:Hc; [|discriminate].
    apply String.eqb_eq in Hc; subst code.
    destruct (realpath (dirname (absoluteOf requestedPath))) as [rpp|code'] eqn:Hp.
    + destruct (someStartsWith _ (normalizePath rpp)); discriminate.
    + destruct (String.eqb code' "ENOENT") eqn:Hc'; [|discriminate].
      apply String.eqb_eq in Hc'; subst code'. intros [= <-]. auto.
Qed.

(** Conversely, when the path passes the first containment test and neither
    it nor its parent exists, that error is thrown. *)
Theorem validatePath_missing_parent_not_found requestedPath s :
  reachable config s ->
  someStartsWith (allowedDirectories config)
    (normalizePath (absoluteOf requestedPath)) = true ->
  realpath (absoluteOf requestedPath) = Failed "ENOENT" ->
  realpath (dirname (absoluteOf requestedPath)) = Failed "ENOENT" ->
  fst (validatePath requestedPath config s)
  = Thrown (PathNotFoundError (dirname (absoluteOf requestedPath))).
Proof.
  intros Hr Hin Hreal Hparent. rewrite (validatePath_reachable _ _ Hr).
  unfold validateUncached. rewrite Hin, Hreal, Hparent. reflexivity.
Qed.

(** What a success means: the real path of an existing path, found within
    an allowed directory by the prefix test, or the requested location of a
    missing path whose parent's real path is. *)
Theorem validatePath_returned requestedPath s v :
  reachable config s ->
  fst (validatePath requestedPath config s) = Returned v ->
  someStartsWith (allowedDirectories config)
    (normalizePath (absoluteOf requestedPath)) = true
  /\ ((realpath (absoluteOf requestedPath) = Resolved v
       /\ someStartsWith (allowedDirectories config) (normalizePath v) = true)
      \/ (realpath (absoluteOf requestedPath) = Failed "ENOENT"
          /\ v = absoluteOf requestedPath
          /\ exists realParentPath,
               realpath (dirname (absoluteOf requestedPath)) = Resolved realParentPath
               /\ someStartsWith (allowedDirectories config)
                    (normalizePath realParentPath) = true)).
Proof.
  intros Hr. rewrite (validatePath_reachable _ _ Hr). unfold validateUncached.
  destruct (someStartsWith _ (normalizePath (absoluteOf requestedPath)));
    simpl; [|discriminate].
  destruct (realpath (absoluteOf requestedPath)) as [rp|code] eqn:Hreal.
  - destruct (someStartsWith _ (normalizePath rp)) eqn:Hin; [|discriminate].
    intros [= <-]. split; [reflexivity|]. left. split; [reflexivity|exact Hin].
  - destruct (String.eqb code "ENOENT") eqn:Hc; [|discriminate].
    apply String.eqb_eq in Hc; subst code.
    destruct (realpath (dirname (absoluteOf requestedPath))) as [rpp|code'] eqn:Hp.
    + destruct (someStartsWith _ (normalizePath rpp)) eqn:Hin; [|discriminate].
      intros [= <-]. split; [reflexivity|]. right.
      split; [reflexivity|]. split; [reflexivity|]. exists rpp. split; [reflexivity|exact Hin].
    + destruct (String.eqb code' "ENOENT"); discriminate.
Qed.

End ValidationWithCache.

(** ** [validatePath] of the stand-alone server, and bare-prefix containment *)

Section StandaloneProperties.
Context `{H : Host}.
Variable allowedDirectories : list string.

(** Whatever makes the [try] block throw, the [catch] block goes on to the
    parent directory: when the real path is outside every allowed directory
    but the parent resolves inside one, the requested path is returned. *)
Lemma standalone_escape requestedPath s realPath realParentPath :
  someStartsWith allowedDirectories (normalizePath (absoluteOf requestedPath)) = true ->
  realpath (absoluteOf requestedPath) = Resolved realPath ->
  someStartsWith allowedDirectories (normalizePath realPath) = false ->
  realpath (dirname (absoluteOf requestedPath)) = Resolved realParentPath ->
  someStartsWith allowedDirectories (normalizePath realParentPath) = true ->
  Standalone.validatePath allowedDirectories requestedPath s
  = (Returned (absoluteOf requestedPath), s).
Proof.
  intros Hin Hreal Hout Hparent Hpin.
  unfold Standalone.validatePath, tryCatch, bind, fsRealpath.
  rewrite Hin, Hreal. simpl. rewrite Hout. simpl. rewrite Hparent. simpl.
  rewrite Hpin. reflexivity.
Qed.

(** The inner [catch] turns the denial of an outside parent into "Parent
    directory does not exist". *)
Lemma standalone_parent_outside requestedPath s realParentPath :
  someStartsWith allowedDirectories (normalizePath (absoluteOf requestedPath)) = true ->
  realpath (absoluteOf requestedPath) = Failed "ENOENT" ->
  realpath (dirname (absoluteOf requestedPath)) = Resolved realParentPath ->
  someStartsWith allowedDirectories (normalizePath realParentPath) = false ->
  Standalone.validatePath allowedDirectories requestedPath s
  = (Thrown (Error ("Parent directory does not exist: "
                    +:+ dirname (absoluteOf requestedPath))), s).
Proof.
  intros Hin Hreal Hparent Hout.
  unfold Standalone.validatePath, tryCatch, bind, fsRealpath.
  rewrite Hin, Hreal. simpl. rewrite Hparent. simpl. rewrite Hout. reflexivity.
Qed.

End StandaloneProperties.

Lemma startsWith_append root suffix : JS.startsWith (root +:+ suffix) root = true.
Proof.
  induction root as [|a root IH]; simpl.
  - destruct suffix; reflexivity.
  - rewrite Ascii.eqb_refl. exact IH.
Qed.

(** The containment test is a bare string prefix test: every string that
    extends an allowed directory passes, whatever follows the directory's
    name. *)
Lemma someStartsWith_extension dirs root suffix :
  In root dirs -> someStartsWith dirs (root +:+ suffix) = true.
Proof.
  intros Hin. unfold someStartsWith. apply existsb_exists.
  exists root. split; [exact Hin|apply startsWith_append].
Qed.

(** C1. In the stand-alone server the link [/allowed/link], whose real path
    [/etc/passwd] is outside the only allowed directory [/allowed], is
    returned as a validated path: the denial thrown in the [try] block is
    caught by its own [catch], which accepts the path because its parent is
    allowed.  [validatePath] of src/utils/path.ts denies the same request. *)
Theorem C1_standalone_validates_escaping_symlink :
  @realpath demoHost (@absoluteOf demoHost "/allowed/link") = Resolved "/etc/passwd"
  /\ someStartsWith ["/allowed"%string] (@normalizePath demoHost "/etc/passwd") = false
  /\ fst (@Standalone.validatePath demoHost ["/allowed"%string] "/allowed/link" (freshSys ∅))
     = Returned "/allowed/link"%string
  /\ fst (@validatePath demoHost "/allowed/link" (mkConfig ["/allowed"%string]) (freshSys ∅))
     = Thrown (AccessDeniedError "/allowed/link"
                 "Access denied - symlink target outside allowed directories").
Proof. repeat split. Qed.

(** C2. With the only allowed directory [/allowed-dir], the sibling
    directory [/allowed-dirX] and a file in it pass the containment test
    and are returned as validated paths by both servers. *)
Theorem C2_sibling_directory_is_validated :
  someStartsWith ["/allowed-dir"%string] "/allowed-dirX" = true
  /\ fst (@validatePath demoHost "/allowed-dirX" (mkConfig ["/allowed-dir"%string]) (freshSys ∅))
     = Returned "/allowed-dirX"%string
  /\ fst (@validatePath demoHost "/allowed-dirX/secret.txt"
            (mkConfig ["/allowed-dir"%string]) (freshSys ∅))
     = Returned "/allowed-dirX/secret.txt"%string
  /\ fst (@Standalone.validatePath demoHost ["/allowed-dir"%string] "/allowed-dirX" (freshSys ∅))
     = Returned "/allowed-dirX"%string.
Proof. repeat split. Qed.

(** C3. In the stand-alone server a new file under [/allowed/out], a link
    to the directory [/outside], is refused with "Parent directory does not
    exist" although the parent exists: the denial thrown for the outside
    parent is caught by the inner [catch].  [validatePath] of
    src/utils/path.ts throws [AccessDeniedError] for the same request. *)
Theorem C3_standalone_reports_outside_parent_as_missing :
  @realpath demoHost (@absoluteOf demoHost "/allowed/out/new.txt") = Failed "ENOENT"
  /\ @realpath demoHost (@dirname demoHost "/allowed/out/new.txt") = Resolved "/outside"
  /\ someStartsWith ["/allowed"%string] (@normalizePath demoHost "/outside") = false
  /\ fst (@Standalone.validatePath demoHost ["/allowed"%string] "/allowed/out/new.txt"
            (freshSys ∅))
     = Thrown (Error "Parent directory does not exist: /allowed/out")
  /\ fst (@validatePath demoHost "/allowed/out/new.txt" (mkConfig ["/allowed"%string])
            (freshSys ∅))
     = Thrown (AccessDeniedError "/allowed/out"
                 "Access denied - parent directory outside allowed directories").
Proof. repeat split. Qed.

(** The empty request is a request like any other: it resolves to the
    working directory and is cached under the empty string as key. *)
Example empty_request_is_cached :
  let s := snd (@validatePath demoHost EmptyString (mkConfig ["/srv"%string]) (freshSys ∅)) in
  PathValidationCache.cache (pathCache s) = [(EmptyString, "/srv"%string)].
Proof. reflexivity. Qed.

(** With capacity 1, the server itself overfills its cache this way. *)
Example empty_request_overfills_cache :
  let s0 := mkSys (PathValidationCache.new 1 60000 0) ∅ in
  let s1 := snd (@validatePath demoHost EmptyString (mkConfig ["/srv"%string]) s0) in
  let s2 := snd (@validatePath demoHost "/srv/a" (mkConfig ["/srv"%string]) s1) in
  PathValidationCache.size (pathCache s2) = 2.
Proof. reflexivity. Qed.

(** ** The patch engine *)

Section PatchProperties.

Implicit Types (s : string) (ls : list string).

(** [split] never returns the empty array. *)
Lemma split_nonempty sep s : JS.split sep s <> [].
Proof.
  destruct s as [|c s]; simpl; [discriminate|].
  destruct (Ascii.eqb c sep); [discriminate|].
  destruct (JS.split sep s); discriminate.
Qed.

Lemma split_length_pos sep s : (1 <= length (JS.split sep s))%nat.
Proof.
  pose proof (split_nonempty sep s). destruct (JS.split sep s); simpl; [congruence|lia].
Qed.

(** The scan tries the offsets [i], [i+1], ... in turn and stops at the
    first one at which the block equals [normalizedOld]. *)
Lemma scan_Some contentLines oldLines normalizedOld i todo j :
  Patch.scan contentLines oldLines normalizedOld i todo = Some j ->
  (i <= j < i + todo)%nat
  /\ JS.join JS.LF (JS.slice j (j + length oldLines) contentLines) = normalizedOld
  /\ forall j', (i <= j' < j)%nat ->
       JS.join JS.LF (JS.slice j' (j' + length oldLines) contentLines) <> normalizedOld.
Proof.
  revert i. induction todo as [|todo IH]; intros i; simpl; [discriminate|].
  destruct (String.eqb _ normalizedOld) eqn:E.
  - intros [= <-]. apply String.eqb_eq in E.
    split; [lia|]. split; [exact E|]. intros j' Hj'. lia.
  - intros Hs. apply IH in Hs as (Hr & Hm & Hfirst).
    split; [lia|]. split; [exact Hm|].
    intros j' Hj'. destruct (Nat.eq_dec j' i) as [->|Hne].
    + apply String.eqb_neq. exact E.
    + apply Hfirst. lia.
Qed.

Lemma scan_None contentLines oldLines normalizedOld i todo :
  Patch.scan contentLines oldLines normalizedOld i todo = None <->
  forall j, (i <= j < i + todo)%nat ->
    JS.join JS.LF (JS.slice j (j + length oldLines) contentLines) <> normalizedOld.
Proof.
  revert i. induction todo as [|todo IH]; intros i; simpl.
  - split; [intros _ j Hj; lia|reflexivity].
  - destruct (String.eqb _ normalizedOld) eqn:E.
    + split; [discriminate|]. intros Hall. apply String.eqb_eq in E.
      exfalso. apply (Hall i); [lia|exact E].
    + rewrite IH. apply String.eqb_neq in E. split.
      * intros Hall j Hj. destruct (Nat.eq_dec j i) as [->|Hne]; [exact E|].
        apply Hall. lia.
      * intros Hall j Hj. apply Hall. lia.
Qed.

(** [findMatch] finds nothing exactly when no offset matches. *)
Lemma findMatch_None contentLines oldLines normalizedOld :
  Patch.findMatch contentLines oldLines normalizedOld = None <->
  forall i, ~ matchesAt contentLines (length oldLines) normalizedOld i.
Proof.
  unfold Patch.findMatch, matchesAt. rewrite scan_None. split.
  - intros Hall i [Hle Hm]. apply (Hall i); [lia|exact Hm].
  - intros Hall j Hj Hm. apply (Hall j). split; [lia|exact Hm].
Qed.

(** [findMatch] returns the lowest matching offset. *)
Lemma findMatch_Some contentLines oldLines normalizedOld i :
  Patch.findMatch contentLines oldLines normalizedOld = Some i ->
  matchesAt contentLines (length oldLines) normalizedOld i
  /\ forall j, (j < i)%nat -> ~ matchesAt contentLines (length oldLines) normalizedOld j.
Proof.
  unfold Patch.findMatch, matchesAt. intros Hs.
  apply scan_Some in Hs as (Hr & Hm & Hfirst).
  split; [split; [lia|exact Hm]|].
  intros j Hj [_ Hmj]. apply (Hfirst j); [lia|exact Hmj].
Qed.

(** An edit without an exact match makes its turn of the loop throw the
    "Could not find exact match" error, whatever the caller would throw for
    an empty [oldLines]. *)
Lemma applyEdit_no_match emptyErr document edit :
  ~ hasExactMatch document edit ->
  Patch.applyEdit emptyErr document edit = Thrown (Error (Patch.notFoundMessage edit)).
Proof.
  intros Hno. unfold Patch.applyEdit.
  pose proof (split_length_pos JS.LF (JS.replaceCRLF (oldText edit))) as Hpos.
  destruct (Nat.eqb_spec (length (JS.split JS.LF (JS.replaceCRLF (oldText edit)))) 0);
    [lia|].
  replace (Patch.findMatch _ _ _) with (@None nat); [reflexivity|].
  symmetry. apply findMatch_None. intros i Hm. apply Hno. exists i. exact Hm.
Qed.

(** An edit with an exact match is applied. *)
Lemma applyEdit_match emptyErr document edit :
  hasExactMatch document edit ->
  exists modified, Patch.applyEdit emptyErr document edit = Returned modified.
Proof.
  intros [i Hm]. unfold Patch.applyEdit.
  pose proof (split_length_pos JS.LF (JS.replaceCRLF (oldText edit))) as Hpos.
  destruct (Nat.eqb_spec (length (JS.split JS.LF (JS.replaceCRLF (oldText edit)))) 0);
    [lia|].
  destruct (Patch.findMatch _ _ _) as [j|] eqn:Hf; [eexists; reflexivity|].
  exfalso. exact (proj1 (findMatch_None _ _ _) Hf i Hm).
Qed.

(** The guard [oldLines.length === 0] never fires: the outcome of a turn
    does not depend on the error it would throw. *)
Lemma applyEdit_guard_dead e1 e2 document edit :
  Patch.applyEdit e1 document edit = Patch.applyEdit e2 document edit.
Proof.
  unfold Patch.applyEdit.
  pose proof (split_length_pos JS.LF (JS.replaceCRLF (oldText edit))) as Hpos.
  destruct (Nat.eqb_spec (length (JS.split JS.LF (JS.replaceCRLF (oldText edit)))) 0);
    [lia|reflexivity].
Qed.

Lemma applyEdits_app emptyErr document flag pre rest :
  Patch.applyEdits emptyErr document flag (pre ++ rest) =
    match Patch.applyEdits emptyErr document flag pre with
    | Returned (d, f) => Patch.applyEdits emptyErr d f rest
    | Thrown e => Thrown e
    end.
Proof.
  revert document flag. induction pre as [|e pre IH]; intros document flag; simpl.
  - reflexivity.
  - destruct (Patch.applyEdit emptyErr document e); [apply IH|reflexivity].
Qed.

(** The flag [appliedAnyEdit] after a loop that started with [false]: set
    exactly when there was an edit. *)
Lemma applyEdits_flag emptyErr document flag edits d f :
  Patch.applyEdits emptyErr document flag edits = Returned (d, f) ->
  f = match edits with [] => flag | _ => true end.
Proof.
  revert document flag. induction edits as [|e edits IH]; intros document flag; simpl.
  - intros [= _ <-]. reflexivity.
  - destruct (Patch.applyEdit emptyErr document e) as [d'|]; [|discriminate].
    intros Hr. apply IH in Hr. destruct edits; exact Hr.
Qed.

(** The loop stops at the first edit without an exact match. *)
Lemma applyEdits_unmatched emptyErr content pre edit post document flag :
  Patch.applyEdits emptyErr content false pre = Returned (document, flag) ->
  ~ hasExactMatch document edit ->
  Patch.applyEdits emptyErr content false (pre ++ edit :: post)
  = Thrown (Error (Patch.notFoundMessage edit)).
Proof.
  intros Hpre Hno. rewrite applyEdits_app, Hpre. simpl.
  rewrite (applyEdit_no_match _ _ _ Hno). reflexivity.
Qed.

End PatchProperties.

Section FileSystemProperties.
Context `{H : Host}.

(** What a path leads to depends on the store only, not on the cache. *)
Lemma entryAt_disk s s' p : disk s' = disk s -> entryAt s' p = entryAt s p.
Proof. intros Hd. unfold entryAt. rewrite Hd. reflexivity. Qed.

(** A path that the store holds is its own file. *)
Lemma entryAt_location s p content :
  disk s !! p = Some content -> entryAt s p = File p content.
Proof. intros Hd. unfold entryAt. rewrite Hd. reflexivity. Qed.

(** The file an entry names is in the store, with the text the entry has. *)
Lemma entryAt_File s p r content :
  entryAt s p = File r content -> disk s !! r = Some content.
Proof.
  unfold entryAt. destruct (disk s !! p) as [c|] eqn:Hp.
  - intros [= <- <-]. exact Hp.
  - destruct (realpath p) as [r'|code]; [|discriminate].
    destruct (disk s !! r') as [c|] eqn:Hr; [|discriminate].
    intros [= <- <-]. exact Hr.
Qed.

(** On a store whose locations are their own real paths, what a path leads
    to is what its real path holds. *)
Lemma entryAt_realpath s p :
  ownLocations s ->
  entryAt s p = match realpath p with
                | Resolved r =>
                    match disk s !! r with
                    | Some content => File r content
                    | None => Directory r
                    end
                | Failed code => Missing code
                end.
Proof.
  intros Hown. unfold entryAt.
  destruct (disk s !! p) as [content|] eqn:Hp; [|reflexivity].
  rewrite (Hown p content Hp), Hp. reflexivity.
Qed.

Lemma fsReadFile_state p s : snd (fsReadFile p s) = s.
Proof. unfold fsReadFile. destruct (entryAt s p); reflexivity. Qed.

Lemma fsReadFile_File p s r content :
  entryAt s p = File r content -> fsReadFile p s = (Returned content, s).
Proof. intros He. unfold fsReadFile. rewrite He. reflexivity. Qed.

(** Reading returns a text exactly when the path leads to a file with that
    text. *)
Lemma fsReadFile_Returned p s content :
  fst (fsReadFile p s) = Returned content -> exists r, entryAt s p = File r content.
Proof.
  unfold fsReadFile. destruct (entryAt s p) as [r c|r|code]; simpl; [|discriminate..].
  intros [= <-]. exists r. reflexivity.
Qed.

Lemma fileForWrite_File p s r content :
  entryAt s p = File r content -> fileForWrite s p = Resolved r.
Proof. intros He. unfold fileForWrite. rewrite He. reflexivity. Qed.


End FileSystemProperties.

Section EditFileProperties.
Context `{H : Host}.

(** [editFile] step by step, once the path is validated and leads to a
    file. *)
Lemma editFile_unfold_entry args config s validPath target content :
  fst (validatePath (path args) config s) = Returned validPath ->
  entryAt s validPath = File target content ->
  let s1 := snd (validatePath (path args) config s) in
  editFile args config s =
    match Patch.applyEdits emptyOldTextError content false (edits args) with
    | Thrown e => (Thrown e, s1)
    | Returned (_, false) => (Returned noChangesMade, s1)
    | Returned (modifiedContent, true) =>
        finishEdit (dryRun args) validPath modifiedContent
          (createUnifiedDiff content modifiedContent validPath) s1
    end.
Proof.
  intros Hv Hrd s1. subst s1.
  pose proof (validatePath_disk (path args) config s) as Hdisk.
  unfold editFile. unfold bind at 1.
  destruct (validatePath (path args) config s) as [r s1]. simpl in *. subst r.
  unfold bind at 1.
  rewrite (fsReadFile_File validPath s1 target content)
    by (rewrite (entryAt_disk s s1 validPath Hdisk); exact Hrd).
  unfold bind at 1. unfold lift. fold emptyOldTextError.
  destruct (Patch.applyEdits emptyOldTextError content false (edits args))
    as [[modified flag]|e]; [|reflexivity].
  destruct flag; simpl; [|reflexivity].
  unfold finishEdit, bind. destruct (dryRun args); simpl; [reflexivity|].
  destruct (fsWriteFile validPath modified s1) as [[u|e] s2]; reflexivity.
Qed.

(** The same when the validated path is itself in the store. *)
Lemma editFile_unfold args config s validPath content :
  fst (validatePath (path args) config s) = Returned validPath ->
  disk s !! validPath = Some content ->
  let s1 := snd (validatePath (path args) config s) in
  editFile args config s =
    match Patch.applyEdits emptyOldTextError content false (edits args) with
    | Thrown e => (Thrown e, s1)
    | Returned (_, false) => (Returned noChangesMade, s1)
    | Returned (modifiedContent, true) =>
        finishEdit (dryRun args) validPath modifiedContent
          (createUnifiedDiff content modifiedContent validPath) s1
    end.
Proof.
  intros Hv Hrd. apply (editFile_unfold_entry args config s validPath validPath content Hv).
  apply entryAt_location, Hrd.
Qed.

(** [editFile] when the path is refused, or leads to no file: the error of
    the validation or of the read, and nothing written. *)
Lemma editFile_no_file args config s :
  (forall validPath target content,
     fst (validatePath (path args) config s) = Returned validPath ->
     entryAt s validPath <> File target content) ->
  disk (snd (editFile args config s)) = disk s.
Proof.
  intros Hno.
  pose proof (validatePath_disk (path args) config s) as Hdisk.
  unfold editFile. unfold bind at 1.
  destruct (validatePath (path args) config s) as [[validPath|e] s1] eqn:Hv;
    simpl in *; [|exact Hdisk].
  unfold bind at 1. unfold fsReadFile.
  rewrite (entryAt_disk s s1 validPath Hdisk).
  destruct (entryAt s validPath) as [target content|r|code] eqn:He;
    [|exact Hdisk..].
  exfalso. exact (Hno validPath target content eq_refl He).
Qed.

(** [editFile] writes nothing on a dry run, whatever happens. *)
Lemma editFile_dryRun_disk args config s :
  dryRun args = true ->
  disk (snd (editFile args config s)) = disk s.
Proof.
  intros Hdry.
  pose proof (validatePath_disk (path args) config s) as Hdisk.
  destruct (fst (validatePath (path args) config s)) as [validPath|e0] eqn:Hv.
  - destruct (entryAt s validPath) as [target content|r|code] eqn:He.
    + rewrite (editFile_unfold_entry args config s validPath target content Hv He).
      destruct (Patch.applyEdits _ _ _ _) as [[modified flag]|e1]; simpl; [|exact Hdisk].
      destruct flag; simpl; [|exact Hdisk].
      unfold finishEdit. rewrite Hdry. exact Hdisk.
    + apply editFile_no_file. intros vp t c Hvp. rewrite Hv in Hvp.
      injection Hvp as <-. rewrite He. discriminate.
    + apply editFile_no_file. intros vp t c Hvp. rewrite Hv in Hvp.
      injection Hvp as <-. rewrite He. discriminate.
  - apply editFile_no_file. intros vp t c Hvp. rewrite Hv in Hvp. discriminate.
Qed.

(** C6. When the path is valid, the file is there, the edits before [edit]
    apply one after the other and leave [document], and [edit] has no exact
    match in [document], [editFile] throws the "Could not find exact match"
    error for [edit] and the file store is what it was: nothing of the
    earlier edits is written, with or without [dryRun]. *)
Theorem C6_unmatched_edit_aborts_without_writing
    args config s validPath content pre edit post document flag :
  fst (validatePath (path args) config s) = Returned validPath ->
  disk s !! validPath = Some content ->
  edits args = pre ++ edit :: post ->
  Patch.applyEdits emptyOldTextError content false pre = Returned (document, flag) ->
  ~ hasExactMatch document edit ->
  fst (editFile args config s) = Thrown (Error (Patch.notFoundMessage edit))
  /\ disk (snd (editFile args config s)) = disk s.
Proof.
  intros Hv Hrd Hedits Hpre Hno.
  rewrite (editFile_unfold args config s validPath content Hv Hrd), Hedits.
  rewrite (applyEdits_unmatched _ _ _ _ _ _ _ Hpre Hno). simpl.
  split; [reflexivity|apply validatePath_disk].
Qed.

(** C7, as the code has it.  On a dry run [editFile] leaves the file store
    as it was, whatever the edits; and when the path is valid, the file is
    there and every edit applies, it returns the fenced unified diff of the
    original and the final text if there was at least one edit, and the
    notice [noChangesMade] if the list was empty. *)
Theorem C7_dry_run_keeps_file_and_returns_diff_or_notice args config s :
  dryRun args = true ->
  disk (snd (editFile args config s)) = disk s
  /\ forall validPath content modifiedContent flag,
       fst (validatePath (path args) config s) = Returned validPath ->
       disk s !! validPath = Some content ->
       Patch.applyEdits emptyOldTextError content false (edits args)
         = Returned (modifiedContent, flag) ->
       fst (editFile args config s)
       = Returned (match edits args with
                   | [] => noChangesMade
                   | _ => createUnifiedDiff content modifiedContent validPath
                   end).
Proof.
  intros Hdry. split; [apply editFile_dryRun_disk, Hdry|].
  intros validPath content modified flag Hv Hrd Happ.
  rewrite (editFile_unfold args config s validPath content Hv Hrd), Happ.
  apply applyEdits_flag in Happ. subst flag.
  destruct (edits args); [reflexivity|].
  unfold finishEdit. rewrite Hdry. reflexivity.
Qed.

End EditFileProperties.

Section StandaloneEditProperties.
Context `{H : Host}.

(** The stand-alone [applyFileEdits]: the same loop, and the same frame. *)
Lemma applyFileEdits_unfold filePath edits dryRun s content :
  disk s !! filePath = Some content ->
  StandaloneEdit.applyFileEdits filePath edits dryRun s =
    match Patch.applyEdits (Error "Edit operation contains empty oldText")
            content false edits with
    | Thrown e => (Thrown e, s)
    | Returned (modifiedContent, _) =>
        finishEdit dryRun filePath modifiedContent
          (Patch.fenced
             (StandaloneEdit.createUnifiedDiff content modifiedContent filePath)) s
    end.
Proof.
  intros Hrd. unfold StandaloneEdit.applyFileEdits. unfold bind at 1.
  rewrite (fsReadFile_File filePath s filePath content (entryAt_location _ _ _ Hrd)).
  unfold bind at 1. unfold lift.
  destruct (Patch.applyEdits _ content false edits) as [[modified flag]|e];
    [|reflexivity].
  unfold finishEdit, bind. destruct dryRun; simpl; [reflexivity|].
  destruct (fsWriteFile filePath modified s) as [[u|e] s2]; reflexivity.
Qed.

Lemma applyFileEdits_unmatched filePath dryRun s content pre edit post document flag :
  disk s !! filePath = Some content ->
  Patch.applyEdits (Error "Edit operation contains empty oldText") content false pre
    = Returned (document, flag) ->
  ~ hasExactMatch document edit ->
  StandaloneEdit.applyFileEdits filePath (pre ++ edit :: post) dryRun s
  = (Thrown (Error (Patch.notFoundMessage edit)), s).
Proof.
  intros Hrd Hpre Hno. rewrite (applyFileEdits_unfold _ _ _ _ _ Hrd).
  rewrite (applyEdits_unmatched _ _ _ _ _ _ _ Hpre Hno). reflexivity.
Qed.

Lemma applyFileEdits_dryRun filePath edits s :
  disk (snd (StandaloneEdit.applyFileEdits filePath edits true s)) = disk s.
Proof.
  unfold StandaloneEdit.applyFileEdits. unfold bind at 1.
  pose proof (fsReadFile_state filePath s) as Hst.
  destruct (fsReadFile filePath s) as [[content|e] s1]; simpl in Hst; subst s1;
    [|reflexivity].
  unfold bind, lift.
  destruct (Patch.applyEdits _ content false edits) as [[modified flag]|e];
    reflexivity.
Qed.

End StandaloneEditProperties.

(** How to refute a match by running the scan. *)
Lemma no_exact_match_by_scan document edit :
  Patch.findMatch (JS.split JS.LF document)
    (JS.split JS.LF (JS.replaceCRLF (oldText edit))) (JS.replaceCRLF (oldText edit))
  = None ->
  ~ hasExactMatch document edit.
Proof.
  intros Hf [i Hm]. exact (proj1 (findMatch_None _ _ _) Hf i Hm).
Qed.

(** A fenced diff starts with a backtick, the notice with an N. *)
Lemma fenced_ne_noChangesMade diff : Patch.fenced diff <> noChangesMade.
Proof.
  unfold Patch.fenced, Patch.numBackticks.
  assert (Hn : exists n, Patch.growFence diff 3 (String.length diff) = S n).
  { generalize (String.length diff). intros turns.
    assert (Hg : forall t n, exists n', Patch.growFence diff (S n) t = S n').
    { induction t as [|t IH]; intros n; simpl; [eexists; reflexivity|].
      destruct (JS.includes diff _); [apply IH|eexists; reflexivity]. }
    apply Hg. }
  destruct Hn as [n ->]. simpl. discriminate.
Qed.

(** C4. The document is split into lines as it is; only [oldText] and
    [newText] have their line ends normalized.  So in a document with CRLF
    line ends neither the LF spelling of two of its lines nor those two lines
    copied byte for byte are found, and [editFile] fails; the other way
    round (LF document, CRLF [oldText]) the edit applies. *)
Theorem C4_crlf_document_is_never_matched :
  JS.split JS.LF crlfDocument = ["alpha" +:+ String JS.CR EmptyString; "beta"%string]
  /\ Patch.applyEdit emptyOldTextError crlfDocument (mkEdit lfDocument "gamma")
     = Thrown (Error (Patch.notFoundMessage (mkEdit lfDocument "gamma")))
  /\ Patch.applyEdit emptyOldTextError crlfDocument (mkEdit crlfDocument "gamma")
     = Thrown (Error (Patch.notFoundMessage (mkEdit crlfDocument "gamma")))
  /\ fst (@editFile demoHost
            (mkEditFileArgs notes [mkEdit crlfDocument "gamma"] false) demoConfig
            (freshSys {[ notes := crlfDocument ]}))
     = Thrown (Error (Patch.notFoundMessage (mkEdit crlfDocument "gamma")))
  /\ fst (@StandaloneEdit.applyFileEdits demoHost notes [mkEdit crlfDocument "gamma"] false
            (freshSys {[ notes := crlfDocument ]}))
     = Thrown (Error (Patch.notFoundMessage (mkEdit crlfDocument "gamma")))
  /\ Patch.applyEdit emptyOldTextError lfDocument (mkEdit crlfDocument "gamma")
     = Returned "gamma"%string.
Proof. repeat split; vm_compute; reflexivity. Qed.

(** C5. For an empty [oldText], [oldLines] is [['']], of length 1, so the
    guard [oldLines.length === 0] does not fire: the edit is matched against
    the document like any other, replacing the first empty line if there is
    one and failing with "Could not find exact match" otherwise.  On an
    empty file [editFile] applies such an edit and writes the result. *)
Theorem C5_empty_oldText_is_matched_not_rejected :
  (forall document newT,
     Patch.applyEdit emptyOldTextError document (mkEdit EmptyString newT)
     = match Patch.findMatch (JS.split JS.LF document) [EmptyString] EmptyString with
       | Some i =>
           Returned (JS.join JS.LF
             (JS.splice i 1
                (imap (Patch.reindent
                         (from_option JS.leadingSpace EmptyString
                            (JS.split JS.LF document !! i)) [EmptyString])
                      (JS.split JS.LF (JS.replaceCRLF newT)))
                (JS.split JS.LF document)))
       | None => Thrown (Error (Patch.notFoundMessage (mkEdit EmptyString newT)))
       end)
  /\ Patch.applyEdit emptyOldTextError EmptyString (mkEdit EmptyString "x") = Returned "x"%string
  /\ Patch.applyEdit emptyOldTextError lfDocument (mkEdit EmptyString "x")
     = Thrown (Error (Patch.notFoundMessage (mkEdit EmptyString "x")))
  /\ (let r := @editFile demoHost (mkEditFileArgs notes [mkEdit EmptyString "x"] false) demoConfig
                 (freshSys {[ notes := EmptyString ]}) in
      fst r = Returned (@createUnifiedDiff demoHost EmptyString "x" notes)
      /\ disk (snd r) !! notes = Some "x"%string).
Proof.
  split; [intros document newT; reflexivity|].
  repeat split; vm_compute; reflexivity.
Qed.

(** C6 on a run: the first edit applies, the second has no match, nothing is
    written. *)
Lemma C6_unmatched_edit_witness :
  let args := mkEditFileArgs notes
                [mkEdit "alpha" "ALPHA"; mkEdit "missing" "found"] false in
  let s := freshSys {[ notes := lfDocument ]} in
  fst (@editFile demoHost args demoConfig s)
  = Thrown (Error (Patch.notFoundMessage (mkEdit "missing" "found")))
  /\ disk (snd (@editFile demoHost args demoConfig s)) = disk s.
Proof.
  apply (@C6_unmatched_edit_aborts_without_writing demoHost
           (mkEditFileArgs notes [mkEdit "alpha" "ALPHA"; mkEdit "missing" "found"] false)
           demoConfig (freshSys {[ notes := lfDocument ]})
           notes lfDocument [mkEdit "alpha" "ALPHA"] (mkEdit "missing" "found") []
           ("ALPHA" +:+ lf +:+ "beta") true).
  - vm_compute; reflexivity.
  - vm_compute; reflexivity.
  - reflexivity.
  - vm_compute; reflexivity.
  - apply no_exact_match_by_scan. vm_compute; reflexivity.
Defined.

(** C7 as stated fails on a dry run: for the empty edit list [editFile]
    returns the notice, which is not the unified diff (no fenced diff is, see
    [fenced_ne_noChangesMade]); and for a list with an edit that has no match
    it throws and returns nothing. *)
Lemma C7_empty_edit_list_returns_no_diff :
  let s := freshSys {[ notes := lfDocument ]} in
  let r := @editFile demoHost (mkEditFileArgs notes [] true) demoConfig s in
  let r' := @editFile demoHost
              (mkEditFileArgs notes [mkEdit "missing" "found"] true) demoConfig s in
  fst r = Returned noChangesMade
  /\ fst r <> Returned (@createUnifiedDiff demoHost lfDocument lfDocument notes)
  /\ fst r' = Thrown (Error (Patch.notFoundMessage (mkEdit "missing" "found"))).
Proof.
  split; [vm_compute; reflexivity|]. split; [|vm_compute; reflexivity].
  intros Heq. vm_compute in Heq. discriminate Heq.
Qed.

(** C7 on a run: one edit on a dry run, the diff comes back and the file
    keeps its text. *)
Lemma C7_dry_run_witness :
  let args := mkEditFileArgs notes [mkEdit "alpha" "ALPHA"] true in
  let s := freshSys {[ notes := lfDocument ]} in
  disk (snd (@editFile demoHost args demoConfig s)) = disk s
  /\ fst (@editFile demoHost args demoConfig s)
     = Returned (@createUnifiedDiff demoHost lfDocument ("ALPHA" +:+ lf +:+ "beta") notes).
Proof.
  destruct (@C7_dry_run_keeps_file_and_returns_diff_or_notice demoHost
              (mkEditFileArgs notes [mkEdit "alpha" "ALPHA"] true) demoConfig
              (freshSys {[ notes := lfDocument ]}) eq_refl) as [Hdisk Hdiff].
  split; [exact Hdisk|].
  apply (Hdiff notes lfDocument ("ALPHA" +:+ lf +:+ "beta") true);
    vm_compute; reflexivity.
Defined.

(** *** The fence *)

Lemma startsWith_length s p :
  JS.startsWith s p = true -> (String.length p <= String.length s)%nat.
Proof.
  revert s. induction p as [|a p IH]; intros s; simpl; [lia|].
  destruct s as [|b s]; [discriminate|]. simpl.
  intros Hs. apply andb_true_iff in Hs as [_ Hs]. apply IH in Hs. lia.
Qed.

Lemma includes_length s p :
  JS.includes s p = true -> (String.length p <= String.length s)%nat.
Proof.
  induction s as [|b s IH].
  - destruct p; [simpl; lia|discriminate].
  - intros Hi. change (JS.includes (String b s) p)
      with (JS.startsWith (String b s) p || JS.includes s p) in Hi.
    apply orb_true_iff in Hi as [Hs|Hi].
    + apply startsWith_length in Hs. exact Hs.
    + apply IH in Hi. simpl. lia.
Qed.

Lemma length_repeat c n : String.length (JS.repeat c n) = n.
Proof. induction n as [|n IH]; simpl; [reflexivity|]. rewrite IH. reflexivity. Qed.

Lemma growFence_exits diff turns n :
  (String.length diff < n + turns)%nat ->
  JS.includes diff (JS.repeat JS.BACKTICK (Patch.growFence diff n turns)) = false.
Proof.
  revert n. induction turns as [|turns IH]; intros n Hlen; simpl.
  - destruct (JS.includes diff (JS.repeat JS.BACKTICK n)) eqn:E; [|reflexivity].
    apply includes_length in E. rewrite length_repeat in E. lia.
  - destruct (JS.includes diff (JS.repeat JS.BACKTICK n)) eqn:E; [|exact E].
    apply IH. lia.
Qed.

(** The [while] loop is left by its own test within the turns the model
    gives it: the fence chosen does not occur in the diff. *)
Lemma numBackticks_fence_free diff :
  JS.includes diff (JS.repeat JS.BACKTICK (Patch.numBackticks diff)) = false.
Proof. apply growFence_exits. lia. Qed.

(** ** The engine on the documented example *)

(** The example of the tool's description: one line replaced, indentation
    kept. *)
Example applyEdit_return_2 :
  Patch.applyEdit emptyOldTextError
    ("function f() {" +:+ lf +:+ "  return 1" +:+ lf +:+ "}")
    (mkEdit "  return 1" "  return 2")
  = Returned ("function f() {" +:+ lf +:+ "  return 2" +:+ lf +:+ "}").
Proof. reflexivity. Qed.

(** The first line of the replacement takes the indentation of the matched
    line; a later line whose own and whose old counterpart's indentation are
    both non-empty is re-indented relative to it. *)
Example applyEdit_reindents :
  Patch.applyEdit emptyOldTextError
    ("if (x) {" +:+ lf +:+ "    a()" +:+ lf +:+ "    b()" +:+ lf +:+ "}")
    (mkEdit ("    a()" +:+ lf +:+ "    b()") ("c()" +:+ lf +:+ "      d()"))
  = Returned ("if (x) {" +:+ lf +:+ "    c()" +:+ lf +:+ "      d()" +:+ lf +:+ "}").
Proof. reflexivity. Qed.

(** The lowest matching offset wins. *)
Example applyEdit_first_match :
  Patch.applyEdit emptyOldTextError ("x" +:+ lf +:+ "y" +:+ lf +:+ "x")
    (mkEdit "x" "z")
  = Returned ("z" +:+ lf +:+ "y" +:+ lf +:+ "x").
Proof. reflexivity. Qed.

(** ** A stale timer seen through [validatePath]

    With capacity 1: [/srv] is validated at time 0, evicted at time 10 by the
    validation of [/srv/a], validated and cached again at time 20; the
    timeout of the first insertion deletes that entry at time 60000. *)
Example stale_timer_through_validatePath :
  let config := mkConfig ["/srv"%string] in
  let s0 := mkSys (PathValidationCache.new 1 60000 0) ∅ in
  let s1 := snd (@validatePath demoHost "/srv" config s0) in
  let s2 := snd (@validatePath demoHost "/srv/a" config (elapse 10 s1)) in
  let s3 := snd (@validatePath demoHost "/srv" config (elapse 20 s2)) in
  PathValidationCache.cache (pathCache s2) = [("/srv/a"%string, "/srv/a"%string)]
  /\ PathValidationCache.cache (pathCache s3) = [("/srv"%string, "/srv"%string)]
  /\ PathValidationCache.timeouts (pathCache s3)
     = [(60000, "/srv"%string); (60010, "/srv/a"%string); (60020, "/srv"%string)]
  /\ PathValidationCache.cache (pathCache (elapse 60000 s3)) = [].
Proof. repeat split. Qed.

(** ** Exact matches are literal occurrences *)

Section MatchIsOccurrence.

Implicit Types (s p : string) (ls : list string).

Lemma append_cons a s1 s2 : String a s1 +:+ s2 = String a (s1 +:+ s2).
Proof. reflexivity. Qed.

Lemma append_assoc s1 s2 s3 : (s1 +:+ s2) +:+ s3 = s1 +:+ (s2 +:+ s3).
Proof.
  induction s1 as [|a s1 IH]; [reflexivity|].
  rewrite !append_cons. f_equal. exact IH.
Qed.

Lemma append_empty_r s : s +:+ EmptyString = s.
Proof.
  induction s as [|a s IH]; [reflexivity|].
  rewrite append_cons. f_equal. exact IH.
Qed.

Lemma join_cons_char sep c l ls :
  JS.join sep (String c l :: ls) = String c (JS.join sep (l :: ls)).
Proof. destruct ls; reflexivity. Qed.

(** Splitting and joining again gives the text back. *)
Lemma join_split sep s : JS.join sep (JS.split sep s) = s.
Proof.
  induction s as [|c s IH]; [reflexivity|].
  pose proof (split_nonempty sep s) as Hne.
  change (JS.split sep (String c s))
    with (if Ascii.eqb c sep then EmptyString :: JS.split sep s
          else match JS.split sep s with
               | [] => [String c EmptyString]
               | l :: ls => String c l :: ls
               end).
  destruct (JS.split sep s) as [|l ls]; [congruence|].
  destruct (Ascii.eqb_spec c sep) as [->|Hc].
  - change (JS.join sep (EmptyString :: l :: ls))
      with (String sep (JS.join sep (l :: ls))).
    rewrite IH. reflexivity.
  - rewrite join_cons_char, IH. reflexivity.
Qed.

Lemma includes_eq s p :
  JS.includes s p =
    JS.startsWith s p
    || match s with
       | EmptyString => false
       | String _ s' => JS.includes s' p
       end.
Proof. destruct s; reflexivity. Qed.

Lemma includes_intro pre p post : JS.includes (pre +:+ p +:+ post) p = true.
Proof.
  induction pre as [|a pre IH].
  - change (EmptyString +:+ p +:+ post) with (p +:+ post).
    rewrite includes_eq, startsWith_append. reflexivity.
  - rewrite append_cons, includes_eq, IH. apply orb_true_r.
Qed.

Lemma join_cons sep l ls :
  ls <> [] -> JS.join sep (l :: ls) = l +:+ String sep (JS.join sep ls).
Proof. destruct ls; [congruence|reflexivity]. Qed.

(** A run of lines inside a list of lines, joined, occurs in the join of the
    whole list. *)
Lemma join_middle sep before mid after :
  mid <> [] ->
  exists pre post,
    JS.join sep (before ++ mid ++ after) = pre +:+ JS.join sep mid +:+ post.
Proof.
  intros Hmid.
  assert (Htail : exists post, JS.join sep (mid ++ after) = JS.join sep mid +:+ post).
  { clear before. induction mid as [|l mid IH]; [congruence|].
    destruct mid as [|l' mid].
    - destruct after as [|a after].
      + exists EmptyString. simpl. rewrite append_empty_r. reflexivity.
      + exists (String sep (JS.join sep (a :: after))). reflexivity.
    - destruct IH as [post Hpost].
      { discriminate. }
      exists post.
      change ((l :: l' :: mid) ++ after) with (l :: (l' :: mid) ++ after).
      rewrite (join_cons sep l ((l' :: mid) ++ after)) by (simpl; discriminate).
      rewrite Hpost.
      rewrite (join_cons sep l (l' :: mid)) by discriminate.
      rewrite append_assoc. reflexivity. }
  destruct Htail as [post Hpost].
  induction before as [|b before IH].
  - exists EmptyString, post. exact Hpost.
  - destruct IH as (pre & post' & Heq).
    exists (b +:+ String sep pre), post'.
    change ((b :: before) ++ mid ++ after) with (b :: before ++ mid ++ after).
    rewrite (join_cons sep b (before ++ mid ++ after)).
    + rewrite Heq, append_assoc. reflexivity.
    + destruct before; [destruct mid; [congruence|discriminate]|discriminate].
Qed.

(** A block that matches is, character for character, a piece of the
    document as it is stored: line ends included. *)
Lemma hasExactMatch_includes document edit :
  hasExactMatch document edit ->
  JS.includes document (JS.replaceCRLF (oldText edit)) = true.
Proof.
  intros [i [Hle Hm]].
  set (lines := JS.split JS.LF document) in *.
  set (n := length (JS.split JS.LF (JS.replaceCRLF (oldText edit)))) in *.
  assert (Hn : (1 <= n)%nat) by apply split_length_pos.
  unfold JS.slice in Hm. replace (i + n - i)%nat with n in Hm by lia.
  assert (Hmid : take n (drop i lines) <> []).
  { intros Hnil. apply (f_equal length) in Hnil.
    rewrite length_take, length_drop in Hnil. simpl in Hnil. lia. }
  destruct (join_middle JS.LF (take i lines) (take n (drop i lines))
              (drop n (drop i lines)) Hmid) as (pre & post & Heq).
  rewrite take_drop, take_drop in Heq.
  subst lines. rewrite join_split in Heq. rewrite Heq, Hm.
  apply includes_intro.
Qed.

(** So a text that occurs nowhere in the document has no exact match. *)
Lemma absent_text_has_no_match document edit :
  JS.includes document (JS.replaceCRLF (oldText edit)) = false ->
  ~ hasExactMatch document edit.
Proof.
  intros Hno Hm. apply hasExactMatch_includes in Hm. congruence.
Qed.

End MatchIsOccurrence.

Section AbsentText.
Context `{H : Host}.

(** An edit whose normalized [oldText] occurs nowhere in the text the
    earlier edits left makes [editFile] fail, and nothing is written. *)
Lemma editFile_absent_text_fails
    args config s validPath content pre edit post document flag :
  fst (validatePath (path args) config s) = Returned validPath ->
  disk s !! validPath = Some content ->
  edits args = pre ++ edit :: post ->
  Patch.applyEdits emptyOldTextError content false pre = Returned (document, flag) ->
  JS.includes document (JS.replaceCRLF (oldText edit)) = false ->
  fst (editFile args config s) = Thrown (Error (Patch.notFoundMessage edit))
  /\ disk (snd (editFile args config s)) = disk s.
Proof.
  intros Hv Hrd Hedits Hpre Habsent.
  apply absent_text_has_no_match in Habsent.
  rewrite (editFile_unfold args config s validPath content Hv Hrd), Hedits.
  rewrite (applyEdits_unmatched _ _ _ _ _ _ _ Hpre Habsent). simpl.
  split; [reflexivity|apply validatePath_disk].
Qed.

End AbsentText.

(** * Further properties *)

(** ** The validation cache: order, eviction and expiry *)

Section CacheOrder.

Local Abbreviation mapGet := PathValidationCache.mapGet.
Local Abbreviation mapSet := PathValidationCache.mapSet.
Local Abbreviation mapDelete := PathValidationCache.mapDelete.
Local Abbreviation get := PathValidationCache.get.
Local Abbreviation set := PathValidationCache.set.
Local Abbreviation advance := PathValidationCache.advance.
Local Abbreviation size := PathValidationCache.size.
Local Abbreviation cache := PathValidationCache.cache.
Local Abbreviation maxSize := PathValidationCache.maxSize.
Local Abbreviation ttl := PathValidationCache.ttl.
Local Abbreviation clock := PathValidationCache.clock.
Local Abbreviation timeouts := PathValidationCache.timeouts.
Local Abbreviation timerDelay := PathValidationCache.timerDelay.
Local Abbreviation run := PathValidationCache.run.
Local Abbreviation step := PathValidationCache.step.

Implicit Types (m : list (string * string)) (k v : string)
  (c : PathValidationCache.t).

Lemma mapSet_absent m k v : mapGet k m = None -> mapSet k v m = m ++ [(k, v)].
Proof.
  induction m as [|[k0 v0] m IH]; simpl; [reflexivity|].
  destruct (String.eqb k0 k); [discriminate|]. intros Hg. rewrite IH by exact Hg.
  reflexivity.
Qed.

Lemma keys_mapSet_present m k v old :
  mapGet k m = Some old -> map fst (mapSet k v m) = map fst m.
Proof.
  induction m as [|[k0 v0] m IH]; simpl; [discriminate|].
  destruct (String.eqb k0 k) eqn:E.
  - apply String.eqb_eq in E. subst k0. reflexivity.
  - intros Hg. simpl. rewrite IH by exact Hg. reflexivity.
Qed.

(** FIFO eviction.  When the cache is full, its oldest key is not the empty
    string and the key being set is new, [set] drops the oldest entry, keeps
    all others in their order and puts the new entry last. *)
Theorem set_new_key_when_full c k v k0 v0 rest :
  distinctKeys c ->
  cache c = (k0, v0) :: rest ->
  k0 <> EmptyString ->
  maxSize c <= size c ->
  get k c = None ->
  cache (set k v c) = rest ++ [(k, v)].
Proof.
  intros Hnd Hc Hk0 Hfull Hget.
  rewrite (cache_set_full c k v k0 v0 rest Hnd Hc Hk0 Hfull).
  apply mapSet_absent.
  unfold PathValidationCache.get in Hget. rewrite Hc in Hget. simpl in Hget.
  destruct (String.eqb k0 k); [discriminate|exact Hget].
Qed.

Lemma set_new_key_when_full_run :
  let c := run [PathValidationCache.OpSet "/a" "/r/a"; PathValidationCache.OpSet "/b" "/r/b";
                PathValidationCache.OpGet "/a"]
             (PathValidationCache.new 2 60000 0) in
  cache (set "/c" "/r/c" c) = [("/b", "/r/b"); ("/c", "/r/c")]%string.
Proof.
  apply (set_new_key_when_full
           (run [PathValidationCache.OpSet "/a" "/r/a"; PathValidationCache.OpSet "/b" "/r/b";
                 PathValidationCache.OpGet "/a"]
              (PathValidationCache.new 2 60000 0))
           "/c" "/r/c" "/a" "/r/a" [("/b", "/r/b")]%string).
  - apply distinctKeys_run, distinctKeys_new.
  - reflexivity.
  - discriminate.
  - vm_compute. discriminate.
  - reflexivity.
Defined.

(** Below capacity nothing is evicted: a new key goes to the end, and a key
    already present gets its new value where it stands. *)
Theorem set_below_capacity c k v :
  size c < maxSize c ->
  (get k c = None -> cache (set k v c) = cache c ++ [(k, v)])
  /\ (get k c <> None ->
      map fst (cache (set k v c)) = map fst (cache c)
      /\ get k (set k v c) = Some v).
Proof.
  intros Hlt. rewrite (cache_set_below c k v Hlt). split.
  - intros Hget. apply mapSet_absent. exact Hget.
  - intros Hget. split; [|apply get_set_same].
    unfold PathValidationCache.get in Hget.
    destruct (mapGet k (cache c)) as [old|] eqn:E; [|congruence].
    apply (keys_mapSet_present _ _ _ old E).
Qed.

Lemma set_below_capacity_run :
  let c := run [PathValidationCache.OpSet "/a" "/r/a"; PathValidationCache.OpSet "/b" "/r/b"]
             (PathValidationCache.new 3 60000 0) in
  cache (set "/c" "/r/c" c) = [("/a", "/r/a"); ("/b", "/r/b"); ("/c", "/r/c")]%string
  /\ cache (set "/a" "/r/a2" c) = [("/a", "/r/a2"); ("/b", "/r/b")]%string.
Proof.
  pose proof (set_below_capacity
                (run [PathValidationCache.OpSet "/a" "/r/a"; PathValidationCache.OpSet "/b" "/r/b"]
                   (PathValidationCache.new 3 60000 0))) as Hb.
  split.
  - apply (Hb "/c" "/r/c")%string; [vm_compute; reflexivity|reflexivity].
  - reflexivity.
Defined.

(** What a [set] does to the other keys: the only one that can disappear is
    the oldest, and only when the cache was full. *)
Theorem get_after_set_of_other_key c k v k' :
  k' <> k ->
  get k' (set k v c) =
    if (size c >=? maxSize c)
       && JS.truthy (PathValidationCache.firstKey (cache c))
       && String.eqb (default EmptyString (PathValidationCache.firstKey (cache c))) k'
    then None
    else get k' c.
Proof.
  intros Hne. unfold PathValidationCache.get, PathValidationCache.set. simpl.
  rewrite mapGet_mapSet.
  assert (E : String.eqb k k' = false) by (apply String.eqb_neq; congruence).
  rewrite E.
  destruct (size c >=? maxSize c); simpl; [|reflexivity].
  destruct (JS.truthy (PathValidationCache.firstKey (cache c))); simpl; [|reflexivity].
  apply mapGet_mapDelete.
Qed.

Lemma get_after_set_of_other_key_run :
  let c := run [PathValidationCache.OpSet "/a" "/r/a"; PathValidationCache.OpSet "/b" "/r/b"]
             (PathValidationCache.new 2 60000 0) in
  get "/a" (set "/c" "/r/c" c) = None /\ get "/b" (set "/c" "/r/c" c) = Some "/r/b"%string.
Proof.
  split.
  - rewrite get_after_set_of_other_key by discriminate. reflexivity.
  - rewrite get_after_set_of_other_key by discriminate. reflexivity.
Defined.

(** *** Expiry *)

Lemma covered_new ms t now : covered (PathValidationCache.new ms t now).
Proof. intros k Hin. destruct Hin. Qed.

Lemma keys_set c k v k' :
  In k' (map fst (cache (set k v c))) -> k' = k \/ In k' (map fst (cache c)).
Proof.
  unfold PathValidationCache.set. simpl. rewrite keys_mapSet.
  intros [Hin|Heq]; [right|left; exact Heq].
  destruct (size c >=? maxSize c); [|exact Hin].
  destruct (JS.truthy _); [|exact Hin].
  apply keys_mapDelete in Hin. tauto.
Qed.

Lemma covered_set c k v : covered c -> covered (set k v c).
Proof.
  intros Hcov k' Hin. apply keys_set in Hin as [->|Hin].
  - exists (clock c + timerDelay (ttl c)). split.
    + rewrite timeouts_set. apply in_or_app. right. left. reflexivity.
    + rewrite clock_set. change (ttl (set k v c)) with (ttl c). lia.
  - destruct (Hcov k' Hin) as (d & Hd & Hle). exists d. split.
    + rewrite timeouts_set. apply in_or_app. left. exact Hd.
    + rewrite clock_set. change (ttl (set k v c)) with (ttl c). exact Hle.
Qed.

Lemma key_in_mapGet m k : In k (map fst m) -> mapGet k m <> None.
Proof. intros Hin Hg. apply mapGet_None_keys in Hg. tauto. Qed.

(** A key still in the map after [advance] had none of its timeouts fired. *)
Lemma surviving_key_not_due c now k d :
  In k (map fst (cache (advance now c))) ->
  In (d, k) (timeouts c) ->
  now < d.
Proof.
  intros Hin Hd. apply key_in_mapGet in Hin.
  unfold PathValidationCache.advance in Hin. simpl in Hin.
  rewrite mapGet_fired in Hin.
  destruct (existsb _ _) eqn:E; [congruence|].
  destruct (Z.ltb_spec now d) as [Hlt|Hge]; [exact Hlt|].
  exfalso. apply Bool.not_true_iff_false in E. apply E.
  apply existsb_exists. exists (d, k). split.
  - apply filter_In. split; [exact Hd|].
    unfold PathValidationCache.due. simpl. apply Z.leb_le. exact Hge.
  - simpl. apply String.eqb_refl.
Qed.

Lemma covered_advance c now : covered c -> covered (advance now c).
Proof.
  intros Hcov k Hin.
  assert (Hin0 : In k (map fst (cache c))).
  { unfold PathValidationCache.advance in Hin. simpl in Hin.
    eapply keys_fired, Hin. }
  destruct (Hcov k Hin0) as (d & Hd & Hle).
  pose proof (surviving_key_not_due c now k d Hin Hd) as Hlt.
  exists d. split.
  - unfold PathValidationCache.advance. simpl. apply filter_In. split; [exact Hd|].
    unfold PathValidationCache.due. simpl. apply negb_true_iff, Z.leb_gt. exact Hlt.
  - unfold PathValidationCache.advance. simpl. lia.
Qed.

Lemma covered_run ops c : covered c -> covered (run ops c).
Proof.
  revert c. induction ops as [|o ops IH]; intros c Hcov; simpl; [exact Hcov|].
  apply IH. destruct o; simpl; auto using covered_set, covered_advance.
Qed.

(** No entry outlives the timer delay of the TTL: whatever was looked up,
    set and expired since the cache was created, letting one timer delay
    pass without a further [set] leaves the cache empty. *)
Theorem cache_empties_after_ttl ms t now ops :
  let c := run ops (PathValidationCache.new ms t now) in
  cache (advance (clock c + timerDelay (ttl c)) c) = [].
Proof.
  intros c.
  assert (Hcov : covered c) by apply covered_run, covered_new.
  destruct (cache (advance (clock c + timerDelay (ttl c)) c)) as [|[k v] rest] eqn:E;
    [reflexivity|].
  exfalso.
  assert (Hin : In k (map fst (cache (advance (clock c + timerDelay (ttl c)) c)))).
  { rewrite E. left. reflexivity. }
  assert (Hin0 : In k (map fst (cache c))).
  { unfold PathValidationCache.advance in Hin. simpl in Hin. eapply keys_fired, Hin. }
  destruct (Hcov k Hin0) as (d & Hd & Hle).
  pose proof (surviving_key_not_due c _ k d Hin Hd). lia.
Qed.


End CacheOrder.

(** ** [validatePath] of src/utils/path.ts: what is cached and what a hit does *)

Section ValidationCaching.

(** A denial leaves the whole state as it was: nothing is cached for a path
    that was refused or not found, and no timeout is scheduled. *)
Theorem validatePath_denial_changes_nothing `{H : Host} requestedPath config s e :
  fst (validatePath requestedPath config s) = Thrown e ->
  snd (validatePath requestedPath config s) = s.
Proof.
  destruct (JS.truthy (PathValidationCache.get requestedPath (pathCache s))) eqn:E.
  - unfold validatePath, bind, gets. rewrite E. discriminate.
  - rewrite (validatePath_miss _ _ _ E).
    destruct (validateUncached requestedPath config); [discriminate|reflexivity].
Qed.

Lemma validatePath_denial_run :
  snd (@validatePath demoHost "/etc/passwd" demoConfig (freshSys ∅)) = freshSys ∅.
Proof.
  apply (@validatePath_denial_changes_nothing demoHost "/etc/passwd" demoConfig (freshSys ∅)
           (AccessDeniedError "/etc/passwd"
              "Access denied - path outside allowed directories: /etc/passwd")).
  reflexivity.
Defined.

(** Once a request was answered with a non-empty path, the same request is
    answered with that path again and the state stays as it is, whatever the
    file system and the configuration have become: a hit resolves
    nothing. *)
Theorem validatePath_hit_resolves_nothing
    (H1 H2 : Host) requestedPath config config' s v :
  fst (@validatePath H1 requestedPath config s) = Returned v ->
  v <> EmptyString ->
  let s1 := snd (@validatePath H1 requestedPath config s) in
  @validatePath H2 requestedPath config' s1 = (Returned v, s1).
Proof.
  intros Hres Hv s1. subst s1.
  destruct (JS.truthy (PathValidationCache.get requestedPath (pathCache s))) eqn:E.
  - destruct (PathValidationCache.get requestedPath (pathCache s)) as [v0|] eqn:Hg;
      [|discriminate].
    assert (Hv0 : v0 <> EmptyString) by (destruct v0; [discriminate|discriminate]).
    rewrite (@validatePath_hit H1 _ _ _ _ Hg Hv0) in *. simpl in *.
    injection Hres as <-. apply (@validatePath_hit H2 _ _ _ _ Hg Hv0).
  - rewrite (@validatePath_miss H1 _ _ _ E) in *.
    destruct (@validateUncached H1 requestedPath config) as [v0|e0]; [|discriminate].
    simpl in *. injection Hres as ->.
    apply (@validatePath_hit H2); [|exact Hv].
    unfold withCached. simpl. apply get_set_same.
Qed.

End ValidationCaching.

(** A cached answer outlives a change of the file system: after the file
    was turned into a link that leaves the allowed directory, the request is
    still answered from the cache, while a server without that entry denies
    it. *)
Lemma validatePath_hit_run :
  let s1 := snd (@validatePath demoHost notes demoConfig (freshSys ∅)) in
  @validatePath retargetedHost notes demoConfig s1 = (Returned notes, s1)
  /\ fst (@validatePath retargetedHost notes demoConfig (freshSys ∅))
     = Thrown (AccessDeniedError notes
                 "Access denied - symlink target outside allowed directories").
Proof.
  split; [|reflexivity].
  apply (validatePath_hit_resolves_nothing demoHost retargetedHost notes demoConfig
           demoConfig (freshSys ∅) notes); [reflexivity|discriminate].
Defined.

(** Runs of the theorems on [validatePath] of src/utils/path.ts. *)
Lemma validatePath_returned_run :
  someStartsWith (allowedDirectories demoConfig)
    (@normalizePath demoHost (@absoluteOf demoHost notes)) = true
  /\ ((@realpath demoHost (@absoluteOf demoHost notes) = Resolved notes
       /\ someStartsWith (allowedDirectories demoConfig) (@normalizePath demoHost notes) = true)
      \/ (@realpath demoHost (@absoluteOf demoHost notes) = Failed "ENOENT"
          /\ notes = @absoluteOf demoHost notes
          /\ exists realParentPath,
               @realpath demoHost (@dirname demoHost (@absoluteOf demoHost notes))
               = Resolved realParentPath
               /\ someStartsWith (allowedDirectories demoConfig)
                    (@normalizePath demoHost realParentPath) = true)).
Proof.
  apply (@validatePath_returned demoHost demoConfig notes (freshSys ∅) notes).
  - apply reach_init.
  - reflexivity.
Defined.

Lemma validatePath_real_outside_run :
  exists message,
    fst (@validatePath demoHost "/allowed/link" demoConfig (freshSys ∅))
    = Thrown (AccessDeniedError (@absoluteOf demoHost "/allowed/link") message).
Proof.
  apply (@validatePath_real_outside_denied demoHost demoConfig "/allowed/link"
           (freshSys ∅) "/etc/passwd").
  - apply reach_init.
  - reflexivity.
  - reflexivity.
Defined.

Lemma validatePath_parent_outside_run :
  exists p message,
    fst (@validatePath demoHost "/allowed/out/new.txt" demoConfig (freshSys ∅))
    = Thrown (AccessDeniedError p message).
Proof.
  apply (@validatePath_parent_outside_denied demoHost demoConfig "/allowed/out/new.txt"
           (freshSys ∅) "/outside").
  - apply reach_init.
  - reflexivity.
  - reflexivity.
  - reflexivity.
Defined.

Lemma validatePath_not_found_run :
  "/allowed/nodir"%string = @dirname demoHost (@absoluteOf demoHost "/allowed/nodir/new.txt")
  /\ @realpath demoHost (@absoluteOf demoHost "/allowed/nodir/new.txt") = Failed "ENOENT"
  /\ @realpath demoHost "/allowed/nodir" = Failed "ENOENT".
Proof.
  apply (@validatePath_not_found_only_missing_parent demoHost demoConfig
           "/allowed/nodir/new.txt" (freshSys ∅) "/allowed/nodir").
  - apply reach_init.
  - reflexivity.
Defined.

Lemma validatePath_missing_parent_run :
  fst (@validatePath demoHost "/allowed/nodir/new.txt" demoConfig (freshSys ∅))
  = Thrown (PathNotFoundError
              (@dirname demoHost (@absoluteOf demoHost "/allowed/nodir/new.txt"))).
Proof.
  apply (@validatePath_missing_parent_not_found demoHost demoConfig
           "/allowed/nodir/new.txt" (freshSys ∅)).
  - apply reach_init.
  - reflexivity.
  - reflexivity.
  - reflexivity.
Defined.

(** ** The patch engine: lines, the block replaced, the fence *)

Section PatchLines.

Implicit Types (s : string) (ls : list string).

Lemma hasChar_append c s1 s2 : hasChar c (s1 +:+ s2) = hasChar c s1 || hasChar c s2.
Proof.
  induction s1 as [|a s1 IH]; [reflexivity|].
  rewrite append_cons. simpl. rewrite IH. apply orb_assoc.
Qed.

Lemma split_allLines sep s : Forall (fun l => hasChar sep l = false) (JS.split sep s).
Proof.
  induction s as [|c s IH]; [repeat constructor|].
  change (JS.split sep (String c s))
    with (if Ascii.eqb c sep then EmptyString :: JS.split sep s
          else match JS.split sep s with
               | [] => [String c EmptyString]
               | l :: ls => String c l :: ls
               end).
  destruct (Ascii.eqb c sep) eqn:E.
  - constructor; [reflexivity|exact IH].
  - destruct (JS.split sep s) as [|l ls].
    + repeat constructor. simpl. rewrite E. reflexivity.
    + apply Forall_cons_iff in IH as [Hl Hls].
      constructor; [|exact Hls]. simpl. rewrite E, Hl. reflexivity.
Qed.

Lemma split_free sep s : hasChar sep s = false -> JS.split sep s = [s].
Proof.
  induction s as [|c s IH]; [reflexivity|].
  simpl. intros Hf. apply orb_false_iff in Hf as [Hc Hs].
  rewrite Hc, (IH Hs). reflexivity.
Qed.

Lemma split_append_sep sep l rest :
  hasChar sep l = false ->
  JS.split sep (l +:+ String sep rest) = l :: JS.split sep rest.
Proof.
  induction l as [|c l IH]; intros Hf.
  - change (EmptyString +:+ String sep rest) with (String sep rest).
    simpl. rewrite Ascii.eqb_refl. reflexivity.
  - simpl in Hf. apply orb_false_iff in Hf as [Hc Hl].
    rewrite append_cons. simpl. rewrite Hc, (IH Hl). reflexivity.
Qed.

(** Joining lines and splitting again gives the lines back. *)
Lemma split_join sep ls :
  ls <> [] -> Forall (fun l => hasChar sep l = false) ls ->
  JS.split sep (JS.join sep ls) = ls.
Proof.
  induction ls as [|l ls IH]; [congruence|]. intros _ Hall.
  apply Forall_cons_iff in Hall as [Hl Hls].
  destruct ls as [|l' ls].
  - apply split_free, Hl.
  - rewrite join_cons by discriminate.
    rewrite (split_append_sep _ _ _ Hl), IH; [reflexivity|discriminate|exact Hls].
Qed.

Lemma hasChar_leadingSpace c s : hasChar c s = false -> hasChar c (JS.leadingSpace s) = false.
Proof.
  induction s as [|a s IH]; [reflexivity|]. simpl. intros Hf.
  apply orb_false_iff in Hf as [Ha Hs].
  destruct (JS.isSpace a); [|reflexivity]. simpl. rewrite Ha, (IH Hs). reflexivity.
Qed.

Lemma hasChar_trimStart c s : hasChar c s = false -> hasChar c (JS.trimStart s) = false.
Proof.
  induction s as [|a s IH]; [reflexivity|]. simpl. intros Hf.
  destruct (JS.isSpace a).
  - apply orb_false_iff in Hf as [_ Hs]. exact (IH Hs).
  - exact Hf.
Qed.

Lemma hasChar_repeat_space n : hasChar JS.LF (JS.repeat JS.SP n) = false.
Proof. induction n as [|n IH]; [reflexivity|]. simpl. exact IH. Qed.

Lemma reindent_line originalIndent oldLines j line :
  hasChar JS.LF originalIndent = false ->
  hasChar JS.LF line = false ->
  hasChar JS.LF (Patch.reindent originalIndent oldLines j line) = false.
Proof.
  intros Hi Hl. unfold Patch.reindent.
  destruct (Nat.eqb j 0).
  - rewrite hasChar_append, Hi, (hasChar_trimStart _ _ Hl). reflexivity.
  - destruct (JS.truthy _ && JS.truthy _); [|exact Hl].
    rewrite !hasChar_append, Hi, hasChar_repeat_space, (hasChar_trimStart _ _ Hl).
    reflexivity.
Qed.

Lemma Forall_imap_lines {A B} (P : A -> Prop) (Q : B -> Prop) (f : nat -> A -> B) l :
  (forall j x, P x -> Q (f j x)) -> Forall P l -> Forall Q (imap f l).
Proof.
  revert f. induction l as [|x l IH]; intros f Hf Hall; simpl; [constructor|].
  apply Forall_cons_iff in Hall as [Hx Hl].
  constructor; [apply Hf, Hx|]. apply IH; [|exact Hl].
  intros j y Hy. apply Hf, Hy.
Qed.

Lemma length_imap_lines {A B} (f : nat -> A -> B) l : length (imap f l) = length l.
Proof.
  revert f. induction l as [|x l IH]; intros f; simpl; [reflexivity|].
  rewrite IH. reflexivity.
Qed.

Lemma lookup_line ls i l :
  Forall (fun l => hasChar JS.LF l = false) ls -> ls !! i = Some l ->
  hasChar JS.LF l = false.
Proof.
  intros Hall Hl. rewrite Forall_forall in Hall. apply Hall.
  apply list_elem_of_lookup. exists i. exact Hl.
Qed.

(** An edit that applies rewrites the matched block and nothing else: seen
    as lines, the new document is the old one with the [oldLines.length]
    lines at the lowest matching offset replaced by as many lines as the
    normalized [newText] has; the lines before and after are untouched. *)
Theorem applyEdit_replaces_only_the_block emptyErr document edit modified :
  Patch.applyEdit emptyErr document edit = Returned modified ->
  let lines := JS.split JS.LF document in
  let normalizedOld := JS.replaceCRLF (oldText edit) in
  let oldLines := JS.split JS.LF normalizedOld in
  exists i newLines,
    Patch.findMatch lines oldLines normalizedOld = Some i
    /\ length newLines = length (JS.split JS.LF (JS.replaceCRLF (newText edit)))
    /\ JS.split JS.LF modified
       = take i lines ++ newLines ++ drop (i + length oldLines) lines.
Proof.
  intros Happ lines normalizedOld oldLines. unfold Patch.applyEdit in Happ.
  fold normalizedOld oldLines lines in Happ.
  destruct (Nat.eqb (length oldLines) 0); [discriminate|].
  destruct (Patch.findMatch lines oldLines normalizedOld) as [i|] eqn:Hf; [|discriminate].
  injection Happ as <-.
  set (originalIndent := from_option JS.leadingSpace EmptyString (lines !! i)).
  set (newLines := imap (Patch.reindent originalIndent oldLines)
                        (JS.split JS.LF (JS.replaceCRLF (newText edit)))).
  exists i, newLines. split; [reflexivity|]. split; [apply length_imap_lines|].
  assert (Hlines : Forall (fun l => hasChar JS.LF l = false) lines)
    by apply split_allLines.
  assert (Hindent : hasChar JS.LF originalIndent = false).
  { subst originalIndent. destruct (lines !! i) as [l|] eqn:Hl; [|reflexivity].
    simpl. apply hasChar_leadingSpace. exact (lookup_line _ _ _ Hlines Hl). }
  assert (Hnew : Forall (fun l => hasChar JS.LF l = false) newLines).
  { subst newLines.
    apply (Forall_imap_lines (fun l => hasChar JS.LF l = false)); [|apply split_allLines].
    intros j x Hx. apply reindent_line; assumption. }
  assert (Hne : newLines <> []).
  { intros Hnil. apply (f_equal length) in Hnil. subst newLines.
    rewrite length_imap_lines in Hnil.
    pose proof (split_length_pos JS.LF (JS.replaceCRLF (newText edit))).
    simpl in Hnil. lia. }
  unfold JS.splice. apply split_join.
  - intros Hnil. apply app_eq_nil in Hnil as [_ Hnil].
    apply app_eq_nil in Hnil as [Hnil _]. congruence.
  - apply Forall_app. split; [apply Forall_take, Hlines|].
    apply Forall_app. split; [exact Hnew|apply Forall_drop, Hlines].
Qed.

Lemma applyEdit_replaces_only_the_block_run :
  exists i newLines,
    Patch.findMatch (JS.split JS.LF ("x" +:+ lf +:+ "y" +:+ lf +:+ "z"))
      (JS.split JS.LF (JS.replaceCRLF "y")) (JS.replaceCRLF "y") = Some i
    /\ length newLines = length (JS.split JS.LF (JS.replaceCRLF ("p" +:+ lf +:+ "q")))
    /\ JS.split JS.LF ("x" +:+ lf +:+ "p" +:+ lf +:+ "q" +:+ lf +:+ "z")
       = take i (JS.split JS.LF ("x" +:+ lf +:+ "y" +:+ lf +:+ "z")) ++ newLines
         ++ drop (i + length (JS.split JS.LF (JS.replaceCRLF "y")))
              (JS.split JS.LF ("x" +:+ lf +:+ "y" +:+ lf +:+ "z")).
Proof.
  apply (applyEdit_replaces_only_the_block emptyOldTextError
           ("x" +:+ lf +:+ "y" +:+ lf +:+ "z") (mkEdit "y" ("p" +:+ lf +:+ "q"))
           ("x" +:+ lf +:+ "p" +:+ lf +:+ "q" +:+ lf +:+ "z")).
  reflexivity.
Defined.

(** The lowest matching offset on a run. *)
Lemma findMatch_Some_run :
  matchesAt ["x"; "y"; "x"; "y"]%string 1 "y" 1
  /\ forall j, (j < 1)%nat -> ~ matchesAt ["x"; "y"; "x"; "y"]%string 1 "y" j.
Proof.
  apply (findMatch_Some ["x"; "y"; "x"; "y"]%string ["y"%string] "y" 1).
  reflexivity.
Defined.

(** *** The fence *)

Lemma growFence_ge diff n turns : (n <= Patch.growFence diff n turns)%nat.
Proof.
  revert n. induction turns as [|turns IH]; intros n; simpl; [lia|].
  destruct (JS.includes diff (JS.repeat JS.BACKTICK n)); [|lia].
  specialize (IH (S n)). lia.
Qed.

Lemma growFence_minimal diff turns n k :
  (n <= k < Patch.growFence diff n turns)%nat ->
  JS.includes diff (JS.repeat JS.BACKTICK k) = true.
Proof.
  revert n. induction turns as [|turns IH]; intros n; simpl; [lia|].
  destruct (JS.includes diff (JS.repeat JS.BACKTICK n)) eqn:E; [|lia].
  intros Hk. destruct (Nat.eq_dec k n) as [->|Hne]; [exact E|].
  apply (IH (S n)). lia.
Qed.

(** The fence around the diff is the shortest run of at least three
    backticks that does not occur in the diff: the fenced text cannot be
    closed early by what it holds. *)
Theorem fence_is_shortest_absent_run diff :
  let n := Patch.numBackticks diff in
  (3 <= n)%nat
  /\ JS.includes diff (JS.repeat JS.BACKTICK n) = false
  /\ (forall k, (3 <= k < n)%nat -> JS.includes diff (JS.repeat JS.BACKTICK k) = true)
  /\ Patch.fenced diff
     = JS.repeat JS.BACKTICK n +:+ "diff" +:+ String JS.LF diff
       +:+ JS.repeat JS.BACKTICK n +:+ lf +:+ lf.
Proof.
  intros n. subst n. unfold Patch.numBackticks. split; [apply growFence_ge|].
  split; [apply growFence_exits; lia|]. split; [|reflexivity].
  intros k Hk. apply (growFence_minimal diff (String.length diff) 3 k Hk).
Qed.

End PatchLines.

(** ** [editFile]: what is written, and edits in one call or in two

    Here and below a file is named by what its path leads to
    ([entryAt]): a validated path that is a symbolic link is read and
    written at the link's target.  A write can fail ([writeResult]). *)

Section EditFileWrites.
Context `{H : Host}.

Lemma applyEdits_any_flag emptyErr document f f' edits modified g :
  Patch.applyEdits emptyErr document f edits = Returned (modified, g) ->
  Patch.applyEdits emptyErr document f' edits
  = Returned (modified, match edits with [] => f' | _ => true end).
Proof.
  destruct edits as [|e edits]; simpl.
  - intros [= <- _]. reflexivity.
  - destruct (Patch.applyEdit emptyErr document e) as [d|]; [|discriminate].
    intros Hr.
    assert (Hg : g = true).
    { pose proof (applyEdits_flag _ _ _ _ _ _ Hr) as Hg. destruct edits; exact Hg. }
    subst g. exact Hr.
Qed.

(** After a text was put into the file a path leads to, the path leads to
    that file with that text. *)
Lemma entryAt_stored s s' p target content text :
  entryAt s p = File target content ->
  disk s' = <[target := text]> (disk s) ->
  entryAt s' p = File target text.
Proof.
  unfold entryAt. intros He Hd. rewrite Hd.
  destruct (disk s !! p) as [c|] eqn:Hp.
  - injection He as <- <-. rewrite lookup_insert_eq. reflexivity.
  - destruct (realpath p) as [r|code]; [|discriminate].
    destruct (disk s !! r) as [c|] eqn:Hr; [|discriminate].
    injection He as <- <-.
    assert (Hne : r <> p) by (intros ->; congruence).
    rewrite (lookup_insert_ne _ _ _ _ Hne), Hp, lookup_insert_eq. reflexivity.
Qed.

(** The end of [editFile] on a file that is there: the write lands in the
    file the validated path leads to. *)
Lemma finishEdit_File validPath target content modifiedContent diff s :
  entryAt s validPath = File target content ->
  finishEdit false validPath modifiedContent diff s
  = match writeResult target modifiedContent with
    | Written => (Returned diff, stored target modifiedContent s)
    | WriteFailed code None => (Thrown (ErrnoException code), s)
    | WriteFailed code (Some remains) =>
        (Thrown (ErrnoException code), stored target remains s)
    end.
Proof.
  intros He. unfold finishEdit, fsWriteFile.
  rewrite (fileForWrite_File validPath s target content He).
  destruct (writeResult target modifiedContent) as [|code [remains|]]; reflexivity.
Qed.


(** A list of edits that applies as a whole leaves the same files behind
    whether it is sent in one call or split into two calls, the second on
    what the first wrote, as long as the writes complete.  (Texts are those
    of the model, of code units below 256: such a text comes back from the
    file as it was written.) *)
Theorem editFile_in_one_call_or_two
    config s p pre post validPath target content mid midFlag final flag :
  reachable config s ->
  fst (validatePath p config s) = Returned validPath ->
  entryAt s validPath = File target content ->
  Patch.applyEdits emptyOldTextError content false pre = Returned (mid, midFlag) ->
  Patch.applyEdits emptyOldTextError content false (pre ++ post) = Returned (final, flag) ->
  writeResult target mid = Written ->
  writeResult target final = Written ->
  disk (snd (editFile (mkEditFileArgs p (pre ++ post) false) config s))
  = disk (snd (editFile (mkEditFileArgs p post false) config
                 (snd (editFile (mkEditFileArgs p pre false) config s)))).
Proof.
  intros Hreach Hv He Hpre Happ Hwmid Hwfinal.
  (* the one call *)
  pose proof (editFile_unfold_entry (mkEditFileArgs p (pre ++ post) false) config s
                validPath target content Hv He) as H1.
  cbn [path edits dryRun] in H1. rewrite Happ in H1.
  pose proof (applyEdits_flag _ _ _ _ _ _ Happ) as Hflag.
  (* the first of the two calls *)
  rewrite applyEdits_app, Hpre in Happ.
  pose proof (applyEdits_flag _ _ _ _ _ _ Hpre) as Hf1.
  pose proof (editFile_unfold_entry (mkEditFileArgs p pre false) config s
                validPath target content Hv He) as H2.
  cbn [path edits dryRun] in H2. rewrite Hpre in H2.
  set (s1 := snd (validatePath p config s)) in *.
  assert (Hd1 : disk s1 = disk s) by apply validatePath_disk.
  assert (He1 : entryAt s1 validPath = File target content)
    by (rewrite (entryAt_disk s s1 validPath Hd1); exact He).
  assert (Hr1 : reachable config s1) by (apply reach_validate, Hreach).
  set (s2 := snd (editFile (mkEditFileArgs p pre false) config s)) in *.
  assert (Hs2 : reachable config s2
                /\ entryAt s2 validPath = File target mid
                /\ disk s2 = match pre with
                             | [] => disk s
                             | _ => <[target := mid]> (disk s)
                             end).
  { subst s2. rewrite H2. destruct pre as [|e pre]; subst midFlag; cbn [fst snd].
    - simpl in Hpre. injection Hpre as <-.
      split; [exact Hr1|]. split; [exact He1|exact Hd1].
    - rewrite (finishEdit_File validPath target content mid _ s1 He1), Hwmid.
      unfold stored. simpl.
      split; [apply reach_disk, Hr1|].
      rewrite Hd1. split; [|reflexivity].
      apply (entryAt_stored s _ validPath target content mid He). reflexivity. }
  destruct Hs2 as (Hr2 & He2 & Hdisk2).
  (* the second call *)
  assert (Hv2 : fst (validatePath p config s2) = Returned validPath).
  { rewrite (validatePath_reachable config p s2 Hr2).
    rewrite <- (validatePath_reachable config p s Hreach). exact Hv. }
  pose proof (editFile_unfold_entry (mkEditFileArgs p post false) config s2
                validPath target mid Hv2 He2) as H3.
  cbn [path edits dryRun] in H3.
  rewrite (applyEdits_any_flag _ _ _ false _ _ _ Happ) in H3.
  set (s3 := snd (validatePath p config s2)) in *.
  assert (Hd3 : disk s3 = disk s2) by apply validatePath_disk.
  assert (He3 : entryAt s3 validPath = File target mid)
    by (rewrite (entryAt_disk s2 s3 validPath Hd3); exact He2).
  rewrite H1, H3. subst flag.
  destruct pre as [|e pre]; destruct post as [|e' post];
    cbn [app fst snd] in *.
  - simpl. rewrite Hd1, Hd3, Hdisk2. reflexivity.
  - simpl in Hpre. injection Hpre as <-.
    rewrite (finishEdit_File validPath target content final _ s1 He1).
    rewrite (finishEdit_File validPath target content final _ s3 He3).
    rewrite Hwfinal. unfold stored. simpl. rewrite Hd1, Hd3, Hdisk2. reflexivity.
  - rewrite app_nil_r in *. simpl in Happ.
    injection Happ as -> _.
    rewrite (finishEdit_File validPath target content final _ s1 He1), Hwfinal.
    unfold stored. simpl. rewrite Hd1, Hd3, Hdisk2. reflexivity.
  - destruct (pre ++ e' :: post) eqn:E; [destruct pre; discriminate|].
    rewrite (finishEdit_File validPath target content final _ s1 He1).
    rewrite (finishEdit_File validPath target mid final _ s3 He3).
    rewrite Hwfinal. unfold stored. simpl. rewrite Hd1, Hd3, Hdisk2.
    rewrite insert_insert_eq. reflexivity.
Qed.

End EditFileWrites.


Lemma editFile_in_one_call_or_two_run :
  let s := freshSys {[ notes := lfDocument ]} in
  disk (snd (@editFile demoHost
               (mkEditFileArgs notes ([mkEdit "alpha" "ALPHA"] ++ [mkEdit "beta" "BETA"]) false)
               demoConfig s))
  = disk (snd (@editFile demoHost (mkEditFileArgs notes [mkEdit "beta" "BETA"] false) demoConfig
                 (snd (@editFile demoHost (mkEditFileArgs notes [mkEdit "alpha" "ALPHA"] false)
                         demoConfig s)))).
Proof.
  apply (@editFile_in_one_call_or_two demoHost demoConfig
           (freshSys {[ notes := lfDocument ]}) notes
           [mkEdit "alpha" "ALPHA"] [mkEdit "beta" "BETA"] notes notes lfDocument
           ("ALPHA" +:+ lf +:+ "beta") true
           ("ALPHA" +:+ lf +:+ "BETA") true).
  - apply reach_init.
  - vm_compute; reflexivity.
  - vm_compute; reflexivity.
  - vm_compute; reflexivity.
  - vm_compute; reflexivity.
  - reflexivity.
  - reflexivity.
Defined.


(** ** [readFile] and [writeFile] of src/utils/tools.ts *)

Section FileToolsProperties.
Context `{H : Host} `{R : Runtime}.

Lemma validateFileSize_state filepath maxSize s :
  snd (validateFileSize filepath maxSize s) = s.
Proof.
  unfold validateFileSize, bind, fsStatSize.
  destruct (entryAt s filepath) as [r content|r|code]; [| |reflexivity];
    destruct (_ >? maxSize); reflexivity.
Qed.

(** [readFile] once the path is validated: the size check, then the read,
    both on what the validated path leads to. *)
Lemma readFile_unfold args config s validPath :
  fst (validatePath (readPath args) (baseConfig config) s) = Returned validPath ->
  let s1 := snd (validatePath (readPath args) (baseConfig config) s) in
  readFile args config s =
    match entryAt s validPath with
    | File _ content =>
        if (maxFileSize config >? 0) && (utf8Length content >? maxFileSize config)
        then (Thrown (Error (fileSizeMessage (utf8Length content) (maxFileSize config))), s1)
        else (Returned (if isBase64 (readEncoding args) then toBase64 content else content),
              s1)
    | Directory r =>
        if (maxFileSize config >? 0) && (directorySize r >? maxFileSize config)
        then (Thrown (Error (fileSizeMessage (directorySize r) (maxFileSize config))), s1)
        else (Thrown (ErrnoException "EISDIR"), s1)
    | Missing code =>
        (Thrown (if String.eqb code "ENOENT" then PathNotFoundError (readPath args)
                 else ErrnoException code), s1)
    end.
Proof.
  intros Hv s1. subst s1.
  pose proof (validatePath_disk (readPath args) (baseConfig config) s) as Hdisk.
  unfold readFile, tryCatch. unfold bind at 1.
  destruct (validatePath (readPath args) (baseConfig config) s) as [r s1].
  simpl in *. subst r.
  rewrite <- (entryAt_disk s s1 validPath Hdisk).
  destruct (maxFileSize config >? 0);
    unfold bind, validateFileSize, fsStatSize, fsReadFileAs, fsReadFile, bind, ret, throw;
    cbn beta iota.
  - destruct (entryAt s1 validPath) as [r content|r|code] eqn:He.
    + destruct (utf8Length content >? maxFileSize config); cbn; rewrite ?He; reflexivity.
    + destruct (directorySize r >? maxFileSize config); cbn; rewrite ?He; reflexivity.
    + cbn. unfold isENOENT; cbn. destruct (String.eqb code "ENOENT"); reflexivity.
  - cbn. destruct (entryAt s1 validPath) as [r content|r|code]; [reflexivity..|].
    cbn. unfold isENOENT; cbn. destruct (String.eqb code "ENOENT"); reflexivity.
Qed.

Lemma readFile_denied args config s e :
  fst (validatePath (readPath args) (baseConfig config) s) = Thrown e ->
  readFile args config s
  = (Thrown (if isENOENT e then PathNotFoundError (readPath args) else e),
     snd (validatePath (readPath args) (baseConfig config) s)).
Proof.
  intros Hv. unfold readFile, tryCatch. unfold bind at 1.
  destruct (validatePath (readPath args) (baseConfig config) s) as [r s1].
  simpl in *. subst r. destruct (isENOENT e); reflexivity.
Qed.

(** [readFile] never lets an error with the code ENOENT out: whatever
    failed that way, the caller gets [PathNotFoundError]. *)
Theorem readFile_never_throws_ENOENT args config s e :
  fst (readFile args config s) = Thrown e -> isENOENT e = false.
Proof.
  unfold readFile, tryCatch.
  destruct (bind _ _ s) as [[r|e0] s1]; simpl; [discriminate|].
  destruct (isENOENT e0) eqn:E; simpl; intros [= <-]; [reflexivity|exact E].
Qed.

(** [readFile] changes nothing of its own: the state it leaves is the
    state its call of [validatePath] leaves, so the cache gets at most the
    entry of that validation and no file changes (on a server without a log
    file): after the validation it asks for the size and reads. *)
Theorem readFile_changes_no_file args config s :
  snd (readFile args config s) = snd (validatePath (readPath args) (baseConfig config) s)
  /\ disk (snd (readFile args config s)) = disk s.
Proof.
  assert (Hstate : snd (readFile args config s)
                   = snd (validatePath (readPath args) (baseConfig config) s)).
  { destruct (fst (validatePath (readPath args) (baseConfig config) s)) as [vp|e] eqn:Hv.
    - rewrite (readFile_unfold args config s vp Hv).
      destruct (entryAt s vp); [destruct (_ && _)|destruct (_ && _)|]; reflexivity.
    - rewrite (readFile_denied args config s e Hv). reflexivity. }
  split; [exact Hstate|]. rewrite Hstate. apply validatePath_disk.
Qed.


(** Reading a path that passes validation (its parent is there) but is not
    there itself: [PathNotFoundError] naming the path as it was requested,
    with or without a size limit. *)
Theorem readFile_of_missing_file args config s validPath :
  fst (validatePath (readPath args) (baseConfig config) s) = Returned validPath ->
  disk s !! validPath = None ->
  realpath validPath = Failed "ENOENT" ->
  fst (readFile args config s) = Thrown (PathNotFoundError (readPath args)).
Proof.
  intros Hv Hrd Hreal.
  rewrite (readFile_unfold args config s validPath Hv).
  unfold entryAt. rewrite Hrd, Hreal. reflexivity.
Qed.

(** [writeFile] once the path is validated. *)
Lemma writeFile_unfold args config s validPath :
  fst (validatePath (writePath args) (baseConfig config) s) = Returned validPath ->
  let s1 := snd (validatePath (writePath args) (baseConfig config) s) in
  let contentSize := byteLength (writeContent args) (writeEncoding args) in
  writeFile args config s =
    if (maxFileSize config >? 0) && (contentSize >? maxFileSize config)
    then (Thrown (FileSizeError (writePath args) contentSize (maxFileSize config)), s1)
    else
      match mkdirRecursive (dirname validPath) with
      | Some code => (Thrown (ErrnoException code), s1)
      | None =>
          match fsWriteFile validPath
                  (textOf (writeEncoding args) (writeContent args)) s1 with
          | (Returned _, s2) =>
              (Returned ("Successfully wrote to " +:+ writePath args), s2)
          | (Thrown e, s2) => (Thrown e, s2)
          end
      end.
Proof.
  intros Hv s1 contentSize. subst s1 contentSize.
  unfold writeFile. unfold bind at 1.
  destruct (validatePath (writePath args) (baseConfig config) s) as [r s1].
  simpl in *. subst r.
  unfold bind, fsMkdir, fsWriteFileAs.
  destruct (maxFileSize config >? 0); simpl.
  - destruct (byteLength _ _ >? maxFileSize config); simpl; [reflexivity|].
    destruct (mkdirRecursive (dirname validPath)); simpl; [reflexivity|].
    destruct (fsWriteFile validPath _ s1) as [[u|e] s2]; reflexivity.
  - destruct (mkdirRecursive (dirname validPath)); simpl; [reflexivity|].
    destruct (fsWriteFile validPath _ s1) as [[u|e] s2]; reflexivity.
Qed.


(** What a write does to the store, read off the state before the
    validation. *)
Lemma fsWriteFile_after_validation requestedPath config0 s p content :
  let s1 := snd (validatePath requestedPath config0 s) in
  match fileForWrite s p with
  | Resolved r =>
      match writeResult r content with
      | Written =>
          fst (fsWriteFile p content s1) = Returned tt
          /\ disk (snd (fsWriteFile p content s1)) = <[r := content]> (disk s)
      | WriteFailed code None =>
          fst (fsWriteFile p content s1) = Thrown (ErrnoException code)
          /\ disk (snd (fsWriteFile p content s1)) = disk s
      | WriteFailed code (Some remains) =>
          fst (fsWriteFile p content s1) = Thrown (ErrnoException code)
          /\ disk (snd (fsWriteFile p content s1)) = <[r := remains]> (disk s)
      end
  | Failed code =>
      fst (fsWriteFile p content s1) = Thrown (ErrnoException code)
      /\ disk (snd (fsWriteFile p content s1)) = disk s
  end.
Proof.
  intros s1.
  assert (Hdisk : disk s1 = disk s) by apply validatePath_disk.
  assert (Hf : fileForWrite s1 p = fileForWrite s p).
  { unfold fileForWrite. rewrite (entryAt_disk s s1 p Hdisk). reflexivity. }
  unfold fsWriteFile. rewrite Hf.
  destruct (fileForWrite s p) as [r|code]; [|split; [reflexivity|exact Hdisk]].
  destruct (writeResult r content) as [|code [remains|]]; unfold stored; simpl;
    rewrite ?Hdisk; split; reflexivity.
Qed.

(** [writeFile] is not all or nothing.  When it throws after the path was
    validated, every file is as it was, with one exception: [fs.writeFile]
    itself failed part-way, and then the file it was writing, and no other,
    has changed.  So a refusal by the size check and a failure of [mkdir]
    change no file. *)
Theorem writeFile_failure_keeps_other_files args config s validPath e :
  fst (validatePath (writePath args) (baseConfig config) s) = Returned validPath ->
  fst (writeFile args config s) = Thrown e ->
  disk (snd (writeFile args config s)) = disk s
  \/ exists target code remains,
       fileForWrite s validPath = Resolved target
       /\ writeResult target (textOf (writeEncoding args) (writeContent args))
          = WriteFailed code (Some remains)
       /\ e = ErrnoException code
       /\ disk (snd (writeFile args config s)) = <[target := remains]> (disk s).
Proof.
  intros Hv.
  pose proof (validatePath_disk (writePath args) (baseConfig config) s) as Hdisk.
  rewrite (writeFile_unfold args config s validPath Hv).
  destruct (_ && _); [intros _; left; exact Hdisk|].
  destruct (mkdirRecursive (dirname validPath)); [intros _; left; exact Hdisk|].
  pose proof (fsWriteFile_after_validation (writePath args) (baseConfig config) s validPath
                (textOf (writeEncoding args) (writeContent args))) as Hw.
  cbv zeta in Hw.
  destruct (fileForWrite s validPath) as [target|code] eqn:Hf.
  - destruct (writeResult target _) as [|code [remains|]] eqn:Hr.
    + destruct Hw as [Hw1 Hw2]. destruct (fsWriteFile validPath _ _) as [[u|e1] s2];
        simpl in *; [discriminate|discriminate].
    + destruct Hw as [Hw1 Hw2]. destruct (fsWriteFile validPath _ _) as [[u|e1] s2];
        simpl in *; [discriminate|].
      intros [= <-]. injection Hw1 as ->. right.
      exists target, code, remains. repeat split; first [reflexivity|assumption].
    + destruct Hw as [Hw1 Hw2]. destruct (fsWriteFile validPath _ _) as [[u|e1] s2];
        simpl in *; [discriminate|]. intros _. left. exact Hw2.
  - destruct Hw as [Hw1 Hw2]. destruct (fsWriteFile validPath _ _) as [[u|e1] s2];
      simpl in *; [discriminate|]. intros _. left. exact Hw2.
Qed.





End FileToolsProperties.

(** Runs of [readFile] and [writeFile] on the demo machine. *)

Lemma readFile_never_throws_ENOENT_run :
  isENOENT (PathNotFoundError "/allowed/./new.txt") = false.
Proof.
  apply (@readFile_never_throws_ENOENT demoHost demoRuntime
           (mkReadFileArgs "/allowed/./new.txt" UTF8) (demoTools 0) (freshSys ∅)).
  reflexivity.
Defined.


Lemma readFile_of_missing_file_run :
  fst (@readFile demoHost demoRuntime (mkReadFileArgs "/allowed/./new.txt" UTF8)
         (demoTools 10) (freshSys ∅))
  = Thrown (PathNotFoundError "/allowed/./new.txt").
Proof.
  apply (@readFile_of_missing_file demoHost demoRuntime
           (mkReadFileArgs "/allowed/./new.txt" UTF8) (demoTools 10) (freshSys ∅)
           "/allowed/new.txt"); vm_compute; reflexivity.
Defined.

(** With no space left, a write to [/allowed/notes.txt] fails and leaves
    the file empty. *)
Lemma writeFile_failure_run :
  let s := freshSys {[ notes := lfDocument ]} in
  let r := @writeFile fullDiskHost demoRuntime (mkWriteFileArgs notes "hello" UTF8)
             (demoTools 0) s in
  fst r = Thrown (ErrnoException "ENOSPC")
  /\ disk (snd r) = <[notes := EmptyString]> (disk s).
Proof.
  intros s r.
  assert (Hvalid : fst (@validatePath fullDiskHost notes demoConfig s) = Returned notes)
    by (vm_compute; reflexivity).
  assert (Hthrown : fst r = Thrown (ErrnoException "ENOSPC")) by (vm_compute; reflexivity).
  split; [exact Hthrown|].
  destruct (@writeFile_failure_keeps_other_files fullDiskHost demoRuntime
              (mkWriteFileArgs notes "hello" UTF8) (demoTools 0)
              (freshSys {[ notes := lfDocument ]}) notes (ErrnoException "ENOSPC")
              Hvalid Hthrown)
    as [Hsame|(target & code & remains & Hf & Hw & He & Hd)].
  - exfalso. vm_compute in Hsame. discriminate Hsame.
  - vm_compute in Hf. injection Hf as <-.
    vm_compute in Hw. injection Hw as _ <-.
    exact Hd.
Defined.




(** Reading and editing a directory fail with the code EISDIR. *)
Example readFile_of_directory_run :
  fst (@readFile demoHost demoRuntime (mkReadFileArgs "/allowed" UTF8) (demoTools 0)
         (freshSys {[ notes := lfDocument ]}))
  = Thrown (ErrnoException "EISDIR")
  /\ fst (@editFile demoHost (mkEditFileArgs "/allowed" [mkEdit "alpha" "ALPHA"] false)
            demoConfig (freshSys {[ notes := lfDocument ]}))
     = Thrown (ErrnoException "EISDIR").
Proof. split; vm_compute; reflexivity. Qed.


(** ** The metrics *)

Section MetricsProperties.
Context `{N : Numbers}.

Local Abbreviation inherited := OperationMetrics.inherited.
Local Abbreviation operations := OperationMetrics.operations.
Local Abbreviation starts := OperationMetrics.starts.
Local Abbreviation failures := OperationMetrics.failures.
Local Abbreviation mrun := OperationMetrics.run.
Local Abbreviation mstep := OperationMetrics.step.

Lemma starts_snoc name ops o :
  starts name (ops ++ [o]) =
    match o with
    | OperationMetrics.Start name' _ =>
        if String.eqb name' name then starts name ops + 1 else starts name ops
    | OperationMetrics.Reset _ => 0
    | _ => starts name ops
    end.
Proof. unfold OperationMetrics.starts. rewrite fold_left_app. reflexivity. Qed.

Lemma failures_snoc name ops o :
  failures name (ops ++ [o]) =
    match o with
    | OperationMetrics.Err name' =>
        if String.eqb name' name then failures name ops + 1 else failures name ops
    | OperationMetrics.Reset _ => 0
    | _ => failures name ops
    end.
Proof. unfold OperationMetrics.failures. rewrite fold_left_app. reflexivity. Qed.

Lemma run_snoc ops o m : mrun (ops ++ [o]) m = mstep (mrun ops m) o.
Proof. unfold OperationMetrics.run. rewrite fold_left_app. reflexivity. Qed.

Lemma lookup_ensure_update name f ops name' :
  inherited name = false ->
  OperationMetrics.update name f (OperationMetrics.ensure name ops) !! name' =
    if String.eqb name name'
    then Some (f (default (OperationMetrics.mkData 0 0 numZero) (ops !! name)))
    else ops !! name'.
Proof.
  intros Hn. unfold OperationMetrics.update, OperationMetrics.ensure. rewrite Hn.
  destruct (String.eqb_spec name name') as [<-|Hne].
  - destruct (ops !! name) as [d|] eqn:E.
    + rewrite E. rewrite lookup_insert_eq. reflexivity.
    + rewrite lookup_insert_eq, lookup_insert_eq. reflexivity.
  - destruct (ops !! name) as [d|] eqn:E.
    + rewrite E. rewrite lookup_insert_ne by exact Hne. reflexivity.
    + rewrite lookup_insert_eq, !lookup_insert_ne by exact Hne. reflexivity.
Qed.

Lemma ensure_update_inherited name f ops :
  inherited name = true ->
  OperationMetrics.update name f (OperationMetrics.ensure name ops) = ops.
Proof.
  intros Hn. unfold OperationMetrics.update, OperationMetrics.ensure. rewrite Hn.
  reflexivity.
Qed.

Lemma tallied_step m ops o name :
  inherited name = false -> tallied m ops name -> tallied (mstep m o) (ops ++ [o]) name.
Proof.
  intros Hn (Hs & Hf & Hm). unfold tallied.
  rewrite starts_snoc, failures_snoc.
  destruct o as [name' now|e now|name'|now]; simpl.
  - (* Start *)
    destruct (inherited name') eqn:Hn'.
    + rewrite (ensure_update_inherited _ _ _ Hn').
      destruct (String.eqb_spec name' name) as [->|Hne]; [congruence|].
      split; [exact Hs|]. split; [exact Hf|exact Hm].
    + rewrite (lookup_ensure_update _ _ _ _ Hn').
      destruct (String.eqb_spec name' name) as [->|Hne].
      * split; [lia|]. split; [exact Hf|].
        destruct (operations m !! name) as [d|]; simpl; lia.
      * split; [exact Hs|]. split; [exact Hf|exact Hm].
  - (* End *)
    split; [exact Hs|]. split; [exact Hf|].
    unfold OperationMetrics.endOperation.
    destruct (inherited (OperationMetrics.endName e)) eqn:Hn'; [exact Hm|].
    destruct (operations m !! OperationMetrics.endName e) as [d'|] eqn:E; [|exact Hm].
    simpl. destruct (String.eqb_spec (OperationMetrics.endName e) name) as [<-|Hne].
    + rewrite lookup_insert_eq. rewrite E in Hm. simpl. exact Hm.
    + rewrite lookup_insert_ne by exact Hne. exact Hm.
  - (* Err *)
    destruct (inherited name') eqn:Hn'.
    + rewrite (ensure_update_inherited _ _ _ Hn').
      destruct (String.eqb_spec name' name) as [->|Hne]; [congruence|].
      split; [exact Hs|]. split; [exact Hf|exact Hm].
    + rewrite (lookup_ensure_update _ _ _ _ Hn').
      destruct (String.eqb_spec name' name) as [->|Hne].
      * split; [exact Hs|]. split; [lia|].
        destruct (operations m !! name) as [d|]; simpl; lia.
      * split; [exact Hs|]. split; [exact Hf|exact Hm].
  - (* Reset *)
    split; [lia|]. split; [lia|]. rewrite lookup_empty. split; reflexivity.
Qed.

Lemma tallied_run ops now0 name :
  inherited name = false -> tallied (mrun ops (OperationMetrics.new now0)) ops name.
Proof.
  intros Hn. induction ops as [|o ops IH] using rev_ind.
  - unfold tallied. simpl. rewrite lookup_empty. repeat split; reflexivity.
  - rewrite run_snoc. apply tallied_step; assumption.
Qed.

(** What [getMetrics] reports.  Under [uptime_ms] it is always the uptime,
    whatever was recorded under that name.  Under any other name that
    [Object.prototype] does not define, it is the number of starts and of
    errors recorded since the last reset, and there is an entry exactly when
    one of the two is not zero. *)
Theorem getMetrics_reports_starts_and_errors ops now0 now name :
  let m := mrun ops (OperationMetrics.new now0) in
  OperationMetrics.getMetrics now m !! "uptime_ms"%string
  = Some (OperationMetrics.mkResult 1 0 (numMinus now (OperationMetrics.startTime m)))
  /\ (inherited name = false -> name <> "uptime_ms"%string ->
      (OperationMetrics.resultCount <$> OperationMetrics.getMetrics now m !! name,
       OperationMetrics.resultErrors <$> OperationMetrics.getMetrics now m !! name)
      = if (starts name ops =? 0) && (failures name ops =? 0) then (None, None)
        else (Some (starts name ops), Some (failures name ops))).
Proof.
  intros m. split; [apply lookup_insert_eq|].
  intros Hn Hne. unfold OperationMetrics.getMetrics.
  rewrite lookup_insert_ne by congruence. rewrite lookup_fmap.
  destruct (tallied_run ops now0 name Hn) as (Hs & Hf & Hm). fold m in Hm.
  destruct (operations m !! name) as [d|]; simpl.
  - destruct Hm as (Hc & He & Hpos). rewrite Hc, He.
    destruct (Z.eqb_spec (starts name ops) 0); simpl; [|reflexivity].
    destruct (Z.eqb_spec (failures name ops) 0); [lia|reflexivity].
  - destruct Hm as [-> ->]. reflexivity.
Qed.

Lemma no_inherited_step m o name :
  inherited name = true -> operations m !! name = None ->
  operations (mstep m o) !! name = None.
Proof.
  intros Hn Hm. destruct o as [name' now|e now|name'|now]; simpl.
  - destruct (inherited name') eqn:Hn'.
    + rewrite (ensure_update_inherited _ _ _ Hn'). exact Hm.
    + rewrite (lookup_ensure_update _ _ _ _ Hn').
      destruct (String.eqb_spec name' name) as [->|Hne]; [congruence|exact Hm].
  - unfold OperationMetrics.endOperation.
    destruct (inherited (OperationMetrics.endName e)) eqn:Hn'; [exact Hm|].
    destruct (operations m !! OperationMetrics.endName e) as [d'|]; [|exact Hm].
    simpl. rewrite lookup_insert_ne; [exact Hm|]. intros <-. congruence.
  - destruct (inherited name') eqn:Hn'.
    + rewrite (ensure_update_inherited _ _ _ Hn'). exact Hm.
    + rewrite (lookup_ensure_update _ _ _ _ Hn').
      destruct (String.eqb_spec name' name) as [->|Hne]; [congruence|exact Hm].
  - apply lookup_empty.
Qed.

(** A tool name that [Object.prototype] defines is never counted: whatever
    is started, ended and failed under it, [getMetrics] has no entry for
    it. *)
Theorem inherited_name_is_never_reported ops now0 now name :
  inherited name = true ->
  OperationMetrics.getMetrics now (mrun ops (OperationMetrics.new now0)) !! name = None.
Proof.
  intros Hn. unfold OperationMetrics.getMetrics.
  rewrite lookup_insert_ne.
  - rewrite lookup_fmap.
    assert (Hm : operations (mrun ops (OperationMetrics.new now0)) !! name = None).
    { induction ops as [|o ops IH] using rev_ind; [apply lookup_empty|].
      rewrite run_snoc. apply no_inherited_step; assumption. }
    rewrite Hm. reflexivity.
  - intros <-. vm_compute in Hn. discriminate.
Qed.

End MetricsProperties.

#[local] Existing Instance wholeNumbers.

Lemma getMetrics_reports_run :
  let m := @OperationMetrics.run wholeNumbers demoMetricsOps
             (@OperationMetrics.new wholeNumbers 0) in
  @OperationMetrics.getMetrics wholeNumbers 100 m !! "uptime_ms"%string
  = Some (@OperationMetrics.mkResult wholeNumbers 1 0 100)
  /\ (OperationMetrics.resultCount
        <$> @OperationMetrics.getMetrics wholeNumbers 100 m !! "read_file"%string,
      OperationMetrics.resultErrors
        <$> @OperationMetrics.getMetrics wholeNumbers 100 m !! "read_file"%string)
     = (Some 2, Some 1).
Proof.
  destruct (@getMetrics_reports_starts_and_errors wholeNumbers demoMetricsOps
              0 100 "read_file") as [Hup Hrd].
  split; [exact Hup|]. apply Hrd; [reflexivity|discriminate].
Defined.

Lemma inherited_name_run :
  @OperationMetrics.getMetrics wholeNumbers 100
    (@OperationMetrics.run wholeNumbers demoMetricsOps
       (@OperationMetrics.new wholeNumbers 0)) !! "toString"%string = None.
Proof.
  apply (@inherited_name_is_never_reported wholeNumbers). reflexivity.
Defined.

(** ** [applyFileEdits] of the stand-alone server *)

(** On a dry run [applyFileEdits] leaves every file as it is, and when the
    file is there and every edit applies it returns the fenced diff of the
    old and the new text, for the empty list of edits too. *)
Theorem applyFileEdits_dry_run_returns_diff `{H : Host} filePath edits s :
  disk (snd (StandaloneEdit.applyFileEdits filePath edits true s)) = disk s
  /\ forall content modifiedContent flag,
       disk s !! filePath = Some content ->
       Patch.applyEdits (Error "Edit operation contains empty oldText") content false edits
         = Returned (modifiedContent, flag) ->
       fst (StandaloneEdit.applyFileEdits filePath edits true s)
       = Returned (Patch.fenced
                     (StandaloneEdit.createUnifiedDiff content modifiedContent filePath)).
Proof.
  split; [apply applyFileEdits_dryRun|].
  intros content modified flag Hrd Happ.
  rewrite (applyFileEdits_unfold _ _ _ _ _ Hrd), Happ. reflexivity.
Qed.

Lemma applyFileEdits_dry_run_run :
  let s := freshSys {[ notes := lfDocument ]} in
  disk (snd (@StandaloneEdit.applyFileEdits demoHost notes [] true s)) = disk s
  /\ fst (@StandaloneEdit.applyFileEdits demoHost notes [] true s)
     = Returned (Patch.fenced
                   (@StandaloneEdit.createUnifiedDiff demoHost lfDocument lfDocument notes)).
Proof.
  destruct (@applyFileEdits_dry_run_returns_diff demoHost notes []
              (freshSys {[ notes := lfDocument ]})) as [Hdisk Hdiff].
  split; [exact Hdisk|].
  apply (Hdiff lfDocument lfDocument false); vm_compute; reflexivity.
Defined.

(** Runs of the theorems on the patch engine. *)
Lemma editFile_absent_text_run :
  let args := mkEditFileArgs notes [mkEdit "gamma" "delta"] false in
  let s := freshSys {[ notes := lfDocument ]} in
  fst (@editFile demoHost args demoConfig s)
  = Thrown (Error (Patch.notFoundMessage (mkEdit "gamma" "delta")))
  /\ disk (snd (@editFile demoHost args demoConfig s)) = disk s.
Proof.
  apply (@editFile_absent_text_fails demoHost
           (mkEditFileArgs notes [mkEdit "gamma" "delta"] false) demoConfig
           (freshSys {[ notes := lfDocument ]}) notes lfDocument []
           (mkEdit "gamma" "delta") [] lfDocument false).
  - vm_compute; reflexivity.
  - vm_compute; reflexivity.
  - reflexivity.
  - reflexivity.
  - vm_compute; reflexivity.
Defined.

Lemma fence_run :
  Patch.numBackticks "a```b" = 4%nat
  /\ JS.includes "a```b" (JS.repeat JS.BACKTICK 4) = false
  /\ JS.includes "a```b" (JS.repeat JS.BACKTICK 3) = true.
Proof.
  destruct (fence_is_shortest_absent_run "a```b") as (_ & Hfree & Hmin & _).
  split; [reflexivity|]. split; [exact Hfree|].
  apply Hmin. vm_compute. split; [apply Nat.le_refl|apply Nat.le_refl].
Defined.
